(** * Poker hand probability calculator: a shallow embedding of pokerstars.py

    The development follows the Python module top-down:
    - [validate_cards], the token check of the input form;
    - the part of the [treys] card library the module calls ([Card.new],
      [Card.int_to_str], [Deck]);
    - [calculate_win_probability]: card conversion, removal of the used cards
      from the deck, the Monte Carlo trial loop and the final percentage.

    Python exceptions are values of [exn]; code that draws random cards runs in
    a state-and-exception monad over the state of the random source. The
    random source and the hand evaluator are library code: the first is an
    interface with its documented contract, the second a parameter. The
    definitions come first, the properties after them. *)

From Stdlib Require Import ZArith QArith Lia String Ascii.
From stdpp Require Import base strings numbers list.

Local Open Scope Z_scope.

(** ** Exceptions *)

(** The reasons for which the module (or a library function it calls) raises
    [ValueError]. *)
Inductive value_error : Type :=
  | InvalidCard (key : ascii)         (* "Invalid card: {e}", from a KeyError *)
  | CardNotAvailable (name : string)  (* "Card {name} is not available in the deck." *)
  | SampleOutOfRange                  (* random.sample: larger than population or negative *)
  | MinOfEmpty.                       (* min() of an empty list *)

Inductive exn : Type :=
  | IndexError
  | KeyError (key : ascii)
  | ValueError (why : value_error)
  | ZeroDivisionError.

Inductive result (A : Type) : Type :=
  | Ok (a : A)
  | Err (e : exn).
Arguments Ok {A} a.
Arguments Err {A} e.

#[global] Instance value_error_eq_dec : EqDecision value_error.
Proof. solve_decision. Defined.
#[global] Instance exn_eq_dec : EqDecision exn.
Proof. solve_decision. Defined.
#[global] Instance result_eq_dec `{EqDecision A} : EqDecision (result A).
Proof. solve_decision. Defined.

(** ** Strings *)

(** [c in s] for a one-character [c]. *)
Definition str_in (c : ascii) (s : string) : bool :=
  existsb (Ascii.eqb c) (list_ascii_of_string s).

(** [s.index(c)], as a dictionary built by zipping [s] with [range(len(s))]. *)
Fixpoint str_index (c : ascii) (s : string) : option Z :=
  match s with
  | EmptyString => None
  | String d s' =>
      if Ascii.eqb c d then Some 0 else Z.succ <$> str_index c s'
  end.

(** ** validate_cards *)

Definition valid_ranks : string := "23456789TJQKA".
Definition valid_suits : string := "shdc".

(** [card[i] not in s]; the index is in range wherever the source evaluates
    it, because [len(card) != 2] is tested first and [or] short-circuits. *)
Definition char_not_in (card : string) (i : nat) (s : string) : bool :=
  match String.get i card with
  | Some c => negb (str_in c s)
  | None => true
  end.

Fixpoint validate_cards (cards : list string) : bool :=
  match cards with
  | [] => true
  | card :: rest =>
      if negb (String.length card =? 2)%nat
         || char_not_in card 0 valid_ranks
         || char_not_in card 1 valid_suits
      then false
      else validate_cards rest
  end.

(** ** The card library *)

Definition card : Type := Z.

Module Card.

Definition STR_RANKS : string := "23456789TJQKA".
Definition STR_SUITS : string := "shdc".
Definition INT_SUIT_TO_CHAR_SUIT : string := "xshxdxxxc".
Definition PRIMES : list Z := [2; 3; 5; 7; 11; 13; 17; 19; 23; 29; 31; 37; 41].

Definition CHAR_RANK_TO_INT_RANK (c : ascii) : option Z := str_index c STR_RANKS.

Definition CHAR_SUIT_TO_INT_SUIT (c : ascii) : option Z :=
  if Ascii.eqb c "s" then Some 1
  else if Ascii.eqb c "h" then Some 2
  else if Ascii.eqb c "d" then Some 4
  else if Ascii.eqb c "c" then Some 8
  else None.

(** [Card.new(string)]: the 32-bit card word
    [bitrank | suit | rank | prime]. *)
Definition new (s : string) : result card :=
  match String.get 0 s, String.get 1 s with
  | Some rank_char, Some suit_char =>
      match CHAR_RANK_TO_INT_RANK rank_char with
      | None => Err (KeyError rank_char)
      | Some rank_int =>
          match CHAR_SUIT_TO_INT_SUIT suit_char with
          | None => Err (KeyError suit_char)
          | Some suit_int =>
              let rank_prime := nth (Z.to_nat rank_int) PRIMES 0 in
              let bitrank := Z.shiftl (Z.shiftl 1 rank_int) 16 in
              let suit := Z.shiftl suit_int 12 in
              let rank := Z.shiftl rank_int 8 in
              Ok (Z.lor (Z.lor (Z.lor bitrank suit) rank) rank_prime)
          end
      end
  | _, _ => Err IndexError
  end.

Definition get_rank_int (c : card) : Z := Z.land (Z.shiftr c 8) 15.
Definition get_suit_int (c : card) : Z := Z.land (Z.shiftr c 12) 15.

Definition char_at (s : string) (i : Z) : string :=
  match String.get (Z.to_nat i) s with
  | Some c => String c EmptyString
  | None => EmptyString
  end.

(** [Card.int_to_str(card_int)]. *)
Definition int_to_str (c : card) : string :=
  char_at STR_RANKS (get_rank_int c) ++ char_at INT_SUIT_TO_CHAR_SUIT (get_suit_int c).

End Card.

(** [Deck.GetFullDeck()]: every rank, and within a rank every suit. *)
Definition GetFullDeck : list card :=
  r ← list_ascii_of_string Card.STR_RANKS;
  s ← list_ascii_of_string Card.STR_SUITS;
  match Card.new (String r (String s EmptyString)) with
  | Ok c => [c]
  | Err _ => []
  end.

(** ** The random source

    The module draws cards with [random.sample] and the deck library shuffles
    a new deck. Both are library code; they are taken as an interface over an
    abstract generator state, together with the contract their documentation
    states. The state stands for all the randomness of a run, whichever
    generator object the shuffle and the samples read it from. *)
Class Random : Type := {
  rng : Type;
  (** [random.shuffle(x)]: [x] rearranged. *)
  shuffle : list card → rng → list card * rng;
  (** [random.sample(population, k)]: a new list, [population] is left as it
      was; [ValueError] when [k] is negative or larger than the population. *)
  sample : list card → Z → rng → result (list card) * rng
}.

(** [l ⊆+ pop]: [l] is a selection without replacement from the positions of
    [pop], in any order. *)
Class RandomLaws (R : Random) : Prop := {
  shuffle_perm : ∀ l g, (shuffle l g).1 ≡ₚ l;
  sample_range : ∀ pop k g,
    ¬ (0 ≤ k ≤ Z.of_nat (length pop)) →
    (sample pop k g).1 = Err (ValueError SampleOutOfRange);
  sample_draw : ∀ pop k g,
    0 ≤ k ≤ Z.of_nat (length pop) →
    ∃ l, (sample pop k g).1 = Ok l ∧ Z.of_nat (length l) = k ∧ l ⊆+ pop
}.

(** ** Pure parts of calculate_win_probability *)

(** [[Card.new(card) for card in cards]] *)
Fixpoint new_all (cards : list string) : result (list card) :=
  match cards with
  | [] => Ok []
  | s :: rest =>
      match Card.new s with
      | Err e => Err e
      | Ok c =>
          match new_all rest with
          | Err e => Err e
          | Ok cs => Ok (c :: cs)
          end
      end
  end.

(** The [try] block of lines 44-48: a [KeyError] becomes a [ValueError], any
    other exception passes through. *)
Definition convert_cards (hole_cards board_cards : list string)
  : result (list card * list card) :=
  match new_all hole_cards with
  | Err (KeyError k) => Err (ValueError (InvalidCard k))
  | Err e => Err e
  | Ok hole_card_ints =>
      match new_all board_cards with
      | Err (KeyError k) => Err (ValueError (InvalidCard k))
      | Err e => Err e
      | Ok board_card_ints => Ok (hole_card_ints, board_card_ints)
      end
  end.

(** [l.remove(x)] for an [x] that is in [l]: the first occurrence goes. *)
Fixpoint list_remove_first (x : card) (l : list card) : list card :=
  match l with
  | [] => []
  | y :: l' => if decide (x = y) then l' else y :: list_remove_first x l'
  end.

(** The loop of lines 51-55 over [hole_card_ints + board_card_ints]. *)
Fixpoint remove_used (deck_cards used : list card) : result (list card) :=
  match used with
  | [] => Ok deck_cards
  | c :: rest =>
      if decide (c ∈ deck_cards)
      then remove_used (list_remove_first c deck_cards) rest
      else Err (ValueError (CardNotAvailable (Card.int_to_str c)))
  end.

(** [min(l)] *)
Definition py_min (l : list Z) : result Z :=
  match l with
  | [] => Err (ValueError MinOfEmpty)
  | x :: l' => Ok (foldl Z.min x l')
  end.

(** Lines 76-78: [if hero_score <= min(opponent_scores): wins += 1]. *)
Definition count_win (wins hero_score : Z) (opponent_scores : list Z) : result Z :=
  match py_min opponent_scores with
  | Err e => Err e
  | Ok best => Ok (if hero_score <=? best then wins + 1 else wins)
  end.

(** Line 80: [(wins / num_simulations) * 100], with the quotient taken in the
    rationals. *)
Definition percentage (wins num_simulations : Z) : result Q :=
  if num_simulations =? 0 then Err ZeroDivisionError
  else Ok (inject_Z wins / inject_Z num_simulations * inject_Z 100)%Q.

(** The objects the trial loop reads: the deck after the used cards are gone,
    the converted hero and board cards, and the win counter. *)
Record sim_state : Type := {
  deck_cards : list card;
  hole_card_ints : list card;
  board_card_ints : list card;
  wins : Z
}.

(** What one trial deals. *)
Record deal : Type := {
  opponents_hands : list (list card);
  remaining_board : list card
}.

(** ** The simulation, over a random source and a hand evaluator *)

Section Engine.
Context {R : Random}.

(** [Evaluator().evaluate]: a pure ranking of a board and a hand; a lower
    score is a stronger hand. It is taken to be total: the library ranks any
    five to seven distinct cards, which is what a valid input gives it. *)
Variable evaluate : list card → list card → Z.

(** Computations that consume randomness and may raise. An exception leaves
    the generator where it was when raised. *)
Definition M (A : Type) : Type := rng → result A * rng.

Definition ret {A} (a : A) : M A := λ g, (Ok a, g).
Definition lift {A} (r : result A) : M A := λ g, (r, g).
Definition bind {A B} (m : M A) (k : A → M B) : M B :=
  λ g, match m g with
       | (Ok a, g') => k a g'
       | (Err e, g') => (Err e, g')
       end.

Notation "'let*' x ':=' m 'in' k" := (bind m (λ x, k))
  (at level 10, x name, m at level 200, k at level 200).

(** [Deck()] *)
Definition Deck_new : M (list card) :=
  λ g, let '(cards, g') := shuffle GetFullDeck g in (Ok cards, g').

(** Lines 40-57, up to the start of the loop. *)
Definition setup (hole_cards board_cards : list string) : M sim_state :=
  let* deck := Deck_new in
  let* ints := lift (convert_cards hole_cards board_cards) in
  let* deck' := lift (remove_used deck (ints.1 ++ ints.2)) in
  ret {| deck_cards := deck';
         hole_card_ints := ints.1;
         board_card_ints := ints.2;
         wins := 0 |}.

(** [[sample(deck.cards, 2) for _ in range(n)]] *)
Fixpoint deal_opponents (deck : list card) (n : nat) : M (list (list card)) :=
  match n with
  | O => ret []
  | S n' =>
      let* hand := sample deck 2 in
      let* hands := deal_opponents deck n' in
      ret (hand :: hands)
  end.

(** Lines 62-65; [sum(opponents_hands, [])] is [concat]. *)
Definition deal_trial (deck : list card) (board_cards : list string)
    (num_players : Z) : M deal :=
  let* opps := deal_opponents deck (Z.to_nat (num_players - 1)) in
  let* rest := sample (filter (λ c, c ∉ concat opps) deck)
                      (5 - Z.of_nat (length board_cards)) in
  ret {| opponents_hands := opps; remaining_board := rest |}.

(** Line 66. *)
Definition final_board (st : sim_state) (d : deal) : list card :=
  board_card_ints st ++ remaining_board d.

(** Line 69 and lines 72-74: the scores on the final board. *)
Definition hero_score (st : sim_state) (d : deal) : Z :=
  evaluate (final_board st d) (hole_card_ints st).
Definition opponent_scores (st : sim_state) (d : deal) : list Z :=
  map (evaluate (final_board st d)) (opponents_hands d).

(** One pass through the loop body, lines 61-78. *)
Definition trial (board_cards : list string) (num_players : Z)
    (st : sim_state) : M sim_state :=
  let* d := deal_trial (deck_cards st) board_cards num_players in
  let* wins' := lift (count_win (wins st) (hero_score st d) (opponent_scores st d)) in
  ret {| deck_cards := deck_cards st;
         hole_card_ints := hole_card_ints st;
         board_card_ints := board_card_ints st;
         wins := wins' |}.

(** [for _ in range(num_simulations)], by the number of passes left. *)
Fixpoint run_trials (n : nat) (board_cards : list string) (num_players : Z)
    (st : sim_state) : M sim_state :=
  match n with
  | O => ret st
  | S n' =>
      let* st' := trial board_cards num_players st in
      run_trials n' board_cards num_players st'
  end.

Definition calculate_win_probability (hole_cards board_cards : list string)
    (num_players num_simulations : Z) : M Q :=
  let* st := setup hole_cards board_cards in
  let* st' := run_trials (Z.to_nat num_simulations) board_cards num_players st in
  lift (percentage (wins st') num_simulations).

End Engine.

Arguments M : clear implicits.

(** ** A reference random source

    A generator driven by a tape of raw numbers: each pick reduces the next
    number modulo the size of the pool and takes the card at that position out
    of the pool. An exhausted tape yields zeros. *)
Definition tape : Type := list nat.

Definition randbelow (n : nat) (t : tape) : nat * tape :=
  match t with
  | [] => (O, [])
  | r :: t' => ((r mod n)%nat, t')
  end.

Fixpoint draw (k : nat) (pool : list card) (t : tape) : list card * tape :=
  match k with
  | O => ([], t)
  | S k' =>
      let '(j, t') := randbelow (length pool) t in
      match pool !! j with
      | None => ([], t')
      | Some c =>
          let '(cs, t'') := draw k' (delete j pool) t' in
          (c :: cs, t'')
      end
  end.

Definition tape_shuffle (l : list card) (t : tape) : list card * tape :=
  draw (length l) l t.

Definition tape_sample (pop : list card) (k : Z) (t : tape)
  : result (list card) * tape :=
  if (0 <=? k) && (k <=? Z.of_nat (length pop))
  then let '(cs, t') := draw (Z.to_nat k) pop t in (Ok cs, t')
  else (Err (ValueError SampleOutOfRange), t).

Definition TapeRandom : Random :=
  {| rng := tape; shuffle := tape_shuffle; sample := tape_sample |}.

(** A tape for examples: [n] numbers below 251 from a linear congruence. *)
Fixpoint seeded_tape (n seed : nat) : tape :=
  match n with
  | O => []
  | S n' => seed :: seeded_tape n' ((seed * 37 + 11) mod 251)%nat
  end.

(** A stand-in evaluator for running the engine on examples: the sum of the
    rank indices of the hand, negated so that lower is stronger. The theorems
    below hold for every evaluator. *)
Definition rank_sum_evaluate (board hand : list card) : Z :=
  - foldr Z.add 0 (Card.get_rank_int <$> hand).

(** ** Vocabulary of the statements *)

(** A well-formed token: a rank character followed by a suit character. *)
Definition valid_token (card : string) : Prop :=
  ∃ r s, card = String r (String s EmptyString)
         ∧ r ∈ list_ascii_of_string "23456789TJQKA"
         ∧ s ∈ list_ascii_of_string "shdc".

(** The 52 well-formed tokens, in deck order. *)
Definition all_tokens : list string :=
  r ← list_ascii_of_string valid_ranks;
  s ← list_ascii_of_string valid_suits;
  [String r (String s EmptyString)].

(** The input the form lets through (lines 105-109), with no card given
    twice. *)
Definition valid_input (hole_cards board_cards : list string) : Prop :=
  length hole_cards = 2%nat
  ∧ (length board_cards ≤ 5)%nat
  ∧ validate_cards (hole_cards ++ board_cards) = true
  ∧ NoDup (hole_cards ++ board_cards).

(** [ints] is [[Card.new(card) for card in cards]], completed. *)
Definition converts_to (cards : list string) (ints : list card) : Prop :=
  Forall2 (λ s c, Card.new s = Ok c) cards ints.

(** A hand as an opponent is dealt it: two cards of the deck. *)
Definition hand_of (deck : list card) (h : list card) : Prop :=
  length h = 2%nat ∧ h ⊆+ deck.

(** The fields of the state a trial is not meant to touch. *)
Definition same_shared (st st' : sim_state) : Prop :=
  deck_cards st' = deck_cards st
  ∧ hole_card_ints st' = hole_card_ints st
  ∧ board_card_ints st' = board_card_ints st.

(** The conditions under which a deck covers every deal of a run. *)
Definition deck_covers (deck : list card) (board_cards : list string)
    (num_players : Z) : Prop :=
  NoDup deck
  ∧ (2 ≤ length deck)%nat
  ∧ (length board_cards ≤ 5)%nat
  ∧ 2 * (num_players - 1) + 5 - Z.of_nat (length board_cards)
      ≤ Z.of_nat (length deck).

(** ** A deck with a generator of its own

    [Deck()] builds a generator for itself, which nothing in the module
    seeds, and shuffles with it; [sample] reads the generator of the [random]
    module, the one [random.seed] sets. A state of [OwnDeckRandom R] is the
    pair of the two generator states: the deck's, then the module's. *)
Definition OwnDeckRandom (R : Random) : Random :=
  {| rng := @rng R * @rng R;
     shuffle := λ l g, let '(r, d) := shuffle l g.1 in (r, (d, g.2));
     sample := λ pop k g, let '(r, s) := sample pop k g.2 in (r, (g.1, s)) |}.

Definition result_map {A B} (f : A → B) (r : result A) : result B :=
  match r with
  | Ok a => Ok (f a)
  | Err e => Err e
  end.

(** [random.sample] chooses positions: from a relabelled population it
    returns the relabelling of what it returns from the population, and it
    leaves the generator in the same state. *)
Class SamplesPositions (R : Random) : Prop := {
  sample_fmap : ∀ (f : card → card) pop k g,
    sample (f <$> pop) k g
    = (result_map (fmap f) (sample pop k g).1, (sample pop k g).2)
}.



(** A character of the ASCII range. *)
Definition is_ascii (c : ascii) : Prop := (nat_of_ascii c < 128)%nat.

(** The exception the [try] block lets out for an exception of [Card.new]. *)
Definition reraised (e : exn) : exn :=
  match e with
  | KeyError k => ValueError (InvalidCard k)
  | e => e
  end.

(** ** The form, lines 95-122

    The script reads the two card fields (each split into tokens), the
    player-count slider and the button, and shows one message. *)

(** What the page shows. *)
Inductive shown : Type :=
  | HoleCountError                        (* "Please enter exactly 2 hole cards." *)
  | BoardCountError                       (* "You can enter a maximum of 5 board cards." *)
  | InvalidCardsError                     (* "One or more cards are invalid. ..." *)
  | NothingYet                            (* the button is not pressed *)
  | Success (win_probability : Q)         (* "Your probability of winning is ...%" *)
  | CalculationError (why : value_error)  (* "Error calculating probability: {e}" *)
  | UnexpectedError (e : exn).            (* "Unexpected error: {e}" *)

Section Form.
Context {R : Random}.
Variable evaluate : list card → list card → Z.

(** Lines 113-122: the call with the default [num_simulations=10000], and the
    two [except] clauses. *)
Definition on_click (hole_cards board_cards : list string) (num_players : Z)
  : M R shown :=
  λ g, match calculate_win_probability evaluate hole_cards board_cards
               num_players 10000 g with
       | (Ok win_probability, g') => (Ok (Success win_probability), g')
       | (Err (ValueError why), g') => (Ok (CalculationError why), g')
       | (Err e, g') => (Ok (UnexpectedError e), g')
       end.

(** Lines 104-122. *)
Definition poker_probability_app (hole_cards board_cards : list string)
    (num_players : Z) (clicked : bool) : M R shown :=
  if negb (length hole_cards =? 2)%nat then ret HoleCountError
  else if (5 <? length board_cards)%nat then ret BoardCountError
  else if negb (validate_cards (hole_cards ++ board_cards))
       then ret InvalidCardsError
  else if clicked then on_click hole_cards board_cards num_players
  else ret NothingYet.

End Form.

(** * Properties *)

(** ** Card tokens *)

Lemma str_in_elem_of c s : str_in c s = true ↔ c ∈ list_ascii_of_string s.
Proof.
  unfold str_in. rewrite existsb_exists, list_elem_of_In. split.
  - intros (d & Hd & Heq). apply Ascii.eqb_eq in Heq. by subst.
  - intros Hc. exists c. split; [done | apply Ascii.eqb_refl].
Qed.

Lemma token_check_true card :
  negb (String.length card =? 2)%nat
    || char_not_in card 0 valid_ranks
    || char_not_in card 1 valid_suits = false
  ↔ valid_token card.
Proof.
  unfold valid_token, char_not_in. split.
  - intros H. destruct card as [|r [|s [|x rest]]]; simpl in H; try discriminate.
    apply orb_false_iff in H as [Hr Hs].
    apply negb_false_iff in Hr, Hs.
    exists r, s. by rewrite <- !str_in_elem_of.
  - intros (r & s & -> & Hr & Hs). simpl.
    apply str_in_elem_of in Hr, Hs. unfold valid_ranks, valid_suits.
    by rewrite Hr, Hs.
Qed.

Lemma validate_cards_Forall (cards : list string) :
  validate_cards cards = true ↔ Forall valid_token cards.
Proof.
  induction cards as [|card rest IH]; simpl.
  - split; [constructor | done].
  - pose proof (token_check_true card) as Htok.
    destruct (negb _ || _ || _); split.
    + discriminate.
    + intros Hall. inversion Hall; subst. symmetry. by apply Htok.
    + intros Hrest. constructor; [by apply Htok | by apply IH].
    + intros Hall. inversion Hall; subst. by apply IH.
Qed.

(** C4. [validate_cards cards] is [True] exactly when every element of [cards]
    is a two-character string whose first character is one of 23456789TJQKA
    and whose second is one of shdc; any wrong length, unknown rank or unknown
    suit gives [False]. *)
Theorem validate_cards_iff (cards : list string) :
  validate_cards cards = true ↔ Forall valid_token cards.
Proof. apply validate_cards_Forall. Qed.

Lemma valid_token_all_tokens card : valid_token card ↔ card ∈ all_tokens.
Proof.
  unfold valid_token, all_tokens. rewrite list_elem_of_bind. split.
  - intros (r & s & -> & Hr & Hs). exists r. split; [|done].
    apply list_elem_of_bind. exists s. split; [|done]. by apply list_elem_of_singleton.
  - intros (r & Hin & Hr). apply list_elem_of_bind in Hin as (s & Hin & Hs).
    apply list_elem_of_singleton in Hin. by exists r, s.
Qed.

Lemma new_all_tokens : Card.new <$> all_tokens = Ok <$> GetFullDeck.
Proof. vm_compute. reflexivity. Qed.

Lemma GetFullDeck_NoDup : NoDup GetFullDeck.
Proof. apply (bool_decide_unpack _). vm_compute. exact I. Qed.

Lemma GetFullDeck_length : length GetFullDeck = 52%nat.
Proof. reflexivity. Qed.

Lemma Ok_inj {A} (a b : A) : Ok a = Ok b → a = b.
Proof. congruence. Qed.

Lemma new_valid_token card :
  valid_token card → ∃ c, Card.new card = Ok c ∧ c ∈ GetFullDeck.
Proof.
  rewrite valid_token_all_tokens. intros Hin.
  apply (list_elem_of_fmap_2 Card.new) in Hin. rewrite new_all_tokens in Hin.
  apply list_elem_of_fmap in Hin as (c & Hc & Hin). eauto.
Qed.

Lemma NoDup_fmap_inj_on {A B} (f : A → B) (l : list A) x y :
  NoDup (f <$> l) → x ∈ l → y ∈ l → f x = f y → x = y.
Proof.
  induction l as [|a l IH]; csimpl; intros Hnd Hx Hy Hxy; [by inv Hx|].
  apply NoDup_cons in Hnd as [Ha Hnd].
  apply elem_of_cons in Hx as [->|Hx], Hy as [->|Hy]; auto.
  - exfalso. apply Ha. rewrite Hxy. by apply list_elem_of_fmap_2.
  - exfalso. apply Ha. rewrite <- Hxy. by apply list_elem_of_fmap_2.
Qed.

(** Distinct well-formed tokens are distinct cards. *)
Lemma new_inj_valid s1 s2 :
  valid_token s1 → valid_token s2 → Card.new s1 = Card.new s2 → s1 = s2.
Proof.
  rewrite !valid_token_all_tokens. apply NoDup_fmap_inj_on.
  rewrite new_all_tokens. apply NoDup_fmap_2; [|apply GetFullDeck_NoDup].
  intros a b. apply Ok_inj.
Qed.

Lemma str_index_elem_of c s i :
  str_index c s = Some i → c ∈ list_ascii_of_string s.
Proof.
  revert i. induction s as [|d s IH]; simpl; intros i Hi; [done|].
  destruct (Ascii.eqb_spec c d) as [->|Hne]; [left|].
  destruct (str_index c s) eqn:E; [|done]. right. eauto.
Qed.

Lemma suit_elem_of c i :
  Card.CHAR_SUIT_TO_INT_SUIT c = Some i → c ∈ list_ascii_of_string "shdc".
Proof.
  unfold Card.CHAR_SUIT_TO_INT_SUIT.
  repeat (match goal with
          | |- context [Ascii.eqb c ?x] => destruct (Ascii.eqb_spec c x) as [->|?]
          end; [intros _; apply list_elem_of_In; simpl; tauto|]).
  done.
Qed.

(** [Card.new] reads the first two characters only: whatever it accepts is
    the card of a well-formed token. *)
Lemma new_Ok_token s c :
  Card.new s = Ok c →
  ∃ t, valid_token t ∧ Card.new t = Ok c ∧ c ∈ GetFullDeck.
Proof.
  intros Hnew.
  assert (∃ r u, String.get 0 s = Some r ∧ String.get 1 s = Some u) as (r & u & Hr & Hu).
  { unfold Card.new in Hnew.
    destruct (String.get 0 s), (String.get 1 s); try discriminate. eauto. }
  set (t := String r (String u EmptyString)).
  assert (Card.new t = Card.new s) as Ht.
  { unfold Card.new. rewrite Hr, Hu. reflexivity. }
  assert (valid_token t) as Hv.
  { exists r, u. split; [done|].
    unfold Card.new in Hnew. rewrite Hr, Hu in Hnew.
    unfold Card.CHAR_RANK_TO_INT_RANK in Hnew.
    destruct (str_index r Card.STR_RANKS) eqn:Er; [|discriminate].
    destruct (Card.CHAR_SUIT_TO_INT_SUIT u) eqn:Eu; [|discriminate].
    split; [by eapply str_index_elem_of | by eapply suit_elem_of]. }
  exists t. rewrite Ht. split; [done|]. split; [done|].
  destruct (new_valid_token t Hv) as (c' & Hc' & Hin). congruence.
Qed.

(** The message of line 55 names the card: [int_to_str] inverts [Card.new]. *)
Lemma int_to_str_new c : c ∈ GetFullDeck → Card.new (Card.int_to_str c) = Ok c.
Proof.
  revert c. apply Forall_forall.
  apply (bool_decide_unpack _). vm_compute. exact I.
Qed.

Lemma new_all_Forall2 cards cs :
  new_all cards = Ok cs ↔ Forall2 (λ s c, Card.new s = Ok c) cards cs.
Proof.
  revert cs. induction cards as [|s rest IH]; simpl; intros cs.
  - split; [intros [= <-]; constructor | by inversion 1].
  - destruct (Card.new s) as [c|e] eqn:Hs.
    + destruct (new_all rest) as [cs'|e] eqn:Hrest; split.
      * intros [= <-]. constructor; [done | by apply IH].
      * inversion 1; subst. f_equal. f_equal; [congruence|].
        apply Ok_inj. by apply IH.
      * done.
      * inversion 1; subst. assert (Err e = Ok l') by (by apply IH). done.
    + split; [done | inversion 1; congruence].
Qed.

(** ** The reference random source keeps the contract *)

Lemma randbelow_lt n t : (0 < n)%nat → ((randbelow n t).1 < n)%nat.
Proof.
  intros Hn. destruct t as [|r t]; simpl; [done|].
  apply Nat.mod_upper_bound. lia.
Qed.

Lemma draw_submseteq k pool t : (draw k pool t).1 ⊆+ pool.
Proof.
  revert pool t. induction k as [|k IH]; intros pool t; simpl.
  - apply submseteq_nil_l.
  - destruct (randbelow (length pool) t) as [j t'].
    destruct (pool !! j) as [c|] eqn:Hj; simpl; [|apply submseteq_nil_l].
    specialize (IH (delete j pool) t').
    destruct (draw k (delete j pool) t') as [cs t'']. simpl in *.
    rewrite (delete_Permutation pool j c Hj). by apply submseteq_skip.
Qed.

Lemma draw_length k pool t :
  (k ≤ length pool)%nat → length (draw k pool t).1 = k.
Proof.
  revert pool t. induction k as [|k IH]; intros pool t Hk; simpl; [done|].
  pose proof (randbelow_lt (length pool) t ltac:(lia)) as Hlt.
  destruct (randbelow (length pool) t) as [j t']. simpl in Hlt.
  destruct (lookup_lt_is_Some_2 pool j Hlt) as [c Hj]. rewrite Hj.
  specialize (IH (delete j pool) t').
  destruct (draw k (delete j pool) t') as [cs t'']. simpl in *.
  f_equal. apply IH. rewrite length_delete by eauto. lia.
Qed.

#[global] Instance TapeRandom_laws : RandomLaws TapeRandom.
Proof.
  split; simpl.
  - intros l t. unfold tape_shuffle.
    apply submseteq_length_Permutation; [apply draw_submseteq|].
    by rewrite draw_length.
  - intros pop k t Hk. unfold tape_sample.
    destruct (0 <=? k) eqn:E1, (k <=? Z.of_nat (length pop)) eqn:E2; simpl; try done.
    lia.
  - intros pop k t Hk. unfold tape_sample.
    destruct (0 <=? k) eqn:E1, (k <=? Z.of_nat (length pop)) eqn:E2; simpl; try lia.
    pose proof (draw_submseteq (Z.to_nat k) pop t) as Hsub.
    pose proof (draw_length (Z.to_nat k) pop t ltac:(lia)) as Hlen.
    destruct (draw (Z.to_nat k) pop t) as [cs t']. simpl in *.
    exists cs. split; [done|]. split; [lia | done].
Qed.

(** ** Removing the used cards *)

Lemma list_remove_first_perm x l : x ∈ l → l ≡ₚ x :: list_remove_first x l.
Proof.
  induction l as [|y l IH]; simpl; intros Hx; [by inv Hx|].
  destruct (decide (x = y)) as [->|Hne]; [done|].
  apply elem_of_cons in Hx as [?|Hx]; [done|].
  rewrite (IH Hx) at 1. apply Permutation_swap.
Qed.

(** When the removal loop completes, the deck it started from was the used
    cards together with what is left. *)
Lemma remove_used_Ok deck used deck' :
  remove_used deck used = Ok deck' → deck ≡ₚ used ++ deck'.
Proof.
  revert deck. induction used as [|c rest IH]; simpl; intros deck Hrm.
  - by injection Hrm as ->.
  - destruct (decide (c ∈ deck)) as [Hin|]; [|done].
    rewrite (list_remove_first_perm c deck Hin). apply Permutation_skip. by apply IH.
Qed.

Lemma remove_used_total deck used :
  NoDup used → (∀ c, c ∈ used → c ∈ deck) → ∃ deck', remove_used deck used = Ok deck'.
Proof.
  revert deck. induction used as [|c rest IH]; simpl; intros deck Hnd Hin; [eauto|].
  apply NoDup_cons in Hnd as [Hc Hnd].
  destruct (decide (c ∈ deck)) as [Hcd|Hcd]; [|exfalso; apply Hcd, Hin; left].
  apply IH; [done|]. intros x Hx.
  assert (x ∈ deck) as Hxd by (apply Hin; by right).
  rewrite (list_remove_first_perm c deck Hcd) in Hxd.
  apply elem_of_cons in Hxd as [->|]; done.
Qed.

(** When the removal loop raises, it raises at the first card that is no
    longer in the deck, and names it. *)
Lemma remove_used_Err deck used e :
  remove_used deck used = Err e →
  ∃ l1 c l2, used = l1 ++ c :: l2
    ∧ (c ∈ l1 ∨ c ∉ deck)
    ∧ e = ValueError (CardNotAvailable (Card.int_to_str c)).
Proof.
  revert deck. induction used as [|c rest IH]; simpl; intros deck Hrm; [done|].
  destruct (decide (c ∈ deck)) as [Hin|Hnin].
  - destruct (IH _ Hrm) as (l1 & x & l2 & -> & Hx & ->).
    exists (c :: l1), x, l2. split; [done|]. split; [|done].
    destruct Hx as [Hx|Hx]; [left; by right|].
    destruct (decide (x = c)) as [->|Hne]; [left; left|].
    destruct (decide (x ∈ deck)) as [Hxd|]; [|by right].
    exfalso. apply Hx. rewrite (list_remove_first_perm c deck Hin) in Hxd.
    apply elem_of_cons in Hxd as [?|?]; done.
  - injection Hrm as <-. exists [], c, rest. auto.
Qed.

(** C6. After the distinct, valid hero and board cards [used] are removed from
    a fresh deck (the 52 cards in any order), none of them is in the deck and
    the deck holds [52 - |used|] cards. *)
Theorem remove_used_fresh_deck (deck used : list card) :
  deck ≡ₚ GetFullDeck →
  NoDup used →
  (∀ c, c ∈ used → c ∈ GetFullDeck) →
  ∃ deck', remove_used deck used = Ok deck'
    ∧ (∀ c, c ∈ used → c ∉ deck')
    ∧ Z.of_nat (length deck') = 52 - Z.of_nat (length used).
Proof.
  intros Hfresh Hnd Hvalid.
  destruct (remove_used_total deck used Hnd) as [deck' Hrm].
  { intros c Hc. rewrite Hfresh. auto. }
  exists deck'. split; [done|].
  pose proof (remove_used_Ok _ _ _ Hrm) as Hperm.
  assert (NoDup (used ++ deck')) as Hnd'.
  { rewrite <- Hperm, Hfresh. apply GetFullDeck_NoDup. }
  split.
  - apply NoDup_app in Hnd' as (_ & Hdisj & _). done.
  - assert (length deck = 52%nat) as Hlen by (by rewrite Hfresh).
    rewrite Hperm, length_app in Hlen. lia.
Qed.

Lemma remove_used_fresh_deck_witness :
  ∃ deck', remove_used GetFullDeck [268442665; 134236965; 67115551] = Ok deck'
    ∧ (∀ c, c ∈ [268442665; 134236965; 67115551] → c ∉ deck')
    ∧ Z.of_nat (length deck') = 52 - Z.of_nat (length [268442665; 134236965; 67115551]).
Proof.
  apply (remove_used_fresh_deck GetFullDeck [268442665; 134236965; 67115551]).
  - reflexivity.
  - apply (bool_decide_unpack _). vm_compute. exact I.
  - apply Forall_forall. apply (bool_decide_unpack _). vm_compute. exact I.
Defined.

(** ** Drawing cards *)

Lemma submseteq_NoDup {A} (l k : list A) : l ⊆+ k → NoDup k → NoDup l.
Proof.
  intros Hsub Hnd. apply submseteq_sublist_l in Hsub as (k' & Hsl & Hperm).
  rewrite <- Hperm in Hnd. by eapply sublist_NoDup.
Qed.

Lemma filter_not_in_length (deck taken : list card) :
  NoDup deck →
  (length deck ≤ length (filter (λ c, c ∉ taken) deck) + length taken)%nat.
Proof.
  intros Hnd.
  pose proof (filter_app_complement (λ c, c ∉ taken) deck) as Hsplit.
  apply Permutation_length in Hsplit. rewrite length_app in Hsplit.
  assert (length (filter (λ c : card, ¬ (c ∉ taken)) deck) ≤ length taken)%nat; [|lia].
  apply submseteq_length, NoDup_submseteq; [by apply NoDup_filter|].
  intros c Hc. apply list_elem_of_filter in Hc as [Hc _].
  by destruct (decide (c ∈ taken)).
Qed.

Lemma concat_hands_length (hands : list (list card)) :
  Forall (λ h, length h = 2%nat) hands →
  length (concat hands) = (2 * length hands)%nat.
Proof.
  induction 1 as [|h hands Hh _ IH]; simpl; [done|].
  rewrite length_app, Hh, IH. lia.
Qed.

Section EngineFacts.
Context {R : Random} {laws : RandomLaws R}.

(** Within its range [sample] returns, and only there. *)
Lemma sample_total pop k g :
  0 ≤ k ≤ Z.of_nat (length pop) →
  ∃ l g', sample pop k g = (Ok l, g') ∧ Z.of_nat (length l) = k ∧ l ⊆+ pop.
Proof.
  intros Hk. destruct (sample_draw pop k g Hk) as (l & Hl & Hlen & Hsub).
  destruct (sample pop k g) as [r g'] eqn:E. simpl in Hl. subst r. eauto.
Qed.

Lemma sample_inv pop k g l g' :
  sample pop k g = (Ok l, g') →
  0 ≤ k ≤ Z.of_nat (length pop) ∧ Z.of_nat (length l) = k ∧ l ⊆+ pop.
Proof.
  intros Hs.
  destruct (decide (0 ≤ k ≤ Z.of_nat (length pop))) as [Hk|Hk].
  - destruct (sample_total pop k g Hk) as (l' & g'' & Hs' & Hlen & Hsub).
    rewrite Hs in Hs'. injection Hs' as -> ->. done.
  - pose proof (sample_range pop k g Hk) as He. rewrite Hs in He. done.
Qed.

Lemma deal_opponents_total deck n g :
  (2 ≤ length deck)%nat →
  ∃ opps g', deal_opponents deck n g = (Ok opps, g')
    ∧ length opps = n ∧ Forall (hand_of deck) opps.
Proof.
  intros Hdeck. revert g. induction n as [|n IH]; intros g; simpl.
  - exists [], g. by repeat split.
  - unfold bind.
    destruct (sample_total deck 2 g ltac:(lia)) as (h & g1 & -> & Hlen & Hsub).
    destruct (IH g1) as (opps & g2 & -> & Hn & Hall).
    exists (h :: opps), g2. repeat split; simpl; [by f_equal|].
    constructor; [|done]. split; [lia | done].
Qed.

Lemma deal_opponents_inv deck n g opps g' :
  deal_opponents deck n g = (Ok opps, g') →
  length opps = n ∧ Forall (hand_of deck) opps.
Proof.
  revert g opps. induction n as [|n IH]; intros g opps; simpl.
  - intros [= <- <-]. by split.
  - unfold bind. destruct (sample deck 2 g) as [[h|e] g1] eqn:Hs; [|done].
    destruct (deal_opponents deck n g1) as [[hs|e] g2] eqn:Hd; [|done].
    intros [= <- <-]. apply sample_inv in Hs as (_ & Hlen & Hsub).
    destruct (IH _ _ Hd) as [Hn Hall]. split; simpl; [by f_equal|].
    constructor; [|done]. split; [lia | done].
Qed.

(** What a completed deal looks like. *)
Lemma deal_trial_inv deck board_cards num_players g d g' :
  deal_trial deck board_cards num_players g = (Ok d, g') →
  length (opponents_hands d) = Z.to_nat (num_players - 1)
  ∧ Forall (hand_of deck) (opponents_hands d)
  ∧ Z.of_nat (length (remaining_board d)) = 5 - Z.of_nat (length board_cards)
  ∧ remaining_board d ⊆+ filter (λ c, c ∉ concat (opponents_hands d)) deck.
Proof.
  unfold deal_trial, bind.
  destruct (deal_opponents deck _ g) as [[opps|e] g1] eqn:Hd; [|done].
  destruct (sample _ _ g1) as [[rest|e] g2] eqn:Hs; [|done].
  intros [= <- <-]. simpl.
  apply deal_opponents_inv in Hd as [Hn Hall].
  apply sample_inv in Hs as (_ & Hlen & Hsub). done.
Qed.

(** The deal completes whenever the deck can cover it. *)
Lemma deal_trial_total deck board_cards num_players g :
  NoDup deck →
  (2 ≤ length deck)%nat →
  (length board_cards ≤ 5)%nat →
  2 * Z.max 0 (num_players - 1) + 5 - Z.of_nat (length board_cards)
    ≤ Z.of_nat (length deck) →
  ∃ d g', deal_trial deck board_cards num_players g = (Ok d, g').
Proof.
  intros Hnd Hdeck Hboard Hcover. unfold deal_trial, bind.
  destruct (deal_opponents_total deck (Z.to_nat (num_players - 1)) g Hdeck)
    as (opps & g1 & -> & Hn & Hall).
  pose proof (filter_not_in_length deck (concat opps) Hnd) as Hfilter.
  rewrite concat_hands_length in Hfilter
    by (eapply Forall_impl; [exact Hall | by intros h [? _]]).
  destruct (sample_total (filter (λ c, c ∉ concat opps) deck)
              (5 - Z.of_nat (length board_cards)) g1)
    as (rest & g2 & -> & _); [lia|].
  eauto.
Qed.

End EngineFacts.

(** ** Counting a trial *)

Lemma foldl_min_spec (l : list Z) (x : Z) :
  foldl Z.min x l ≤ x
  ∧ (∀ o, o ∈ l → foldl Z.min x l ≤ o)
  ∧ (foldl Z.min x l = x ∨ foldl Z.min x l ∈ l).
Proof.
  revert x. induction l as [|y l IH]; intros x; simpl.
  - split; [lia|]. split; [by inversion 1 | by left].
  - destruct (IH (Z.min x y)) as (Hle & Hall & Hmem).
    split; [lia|]. split.
    + intros o Ho. apply elem_of_cons in Ho as [->|Ho]; [lia | auto].
    + destruct Hmem as [Hm|Hm]; [|right; by right].
      rewrite Hm. destruct (Z.min_spec x y) as [[_ ->]|[_ ->]]; [by left|right; left].
Qed.

(** [min] of a non-empty list is its least element. *)
Lemma py_min_spec (l : list Z) :
  l ≠ [] → ∃ best, py_min l = Ok best ∧ best ∈ l ∧ ∀ o, o ∈ l → best ≤ o.
Proof.
  destruct l as [|x l]; [done|]. intros _. exists (foldl Z.min x l).
  destruct (foldl_min_spec l x) as (Hle & Hall & Hmem).
  split; [done|]. split.
  - destruct Hmem as [->|?]; [left | by right].
  - intros o Ho. apply elem_of_cons in Ho as [->|Ho]; auto.
Qed.

Lemma count_win_bounds wins hero opps wins' :
  count_win wins hero opps = Ok wins' → wins ≤ wins' ≤ wins + 1.
Proof.
  unfold count_win. destruct (py_min opps); [|done].
  intros [= <-]. destruct (hero <=? a); lia.
Qed.

Lemma count_win_Forall wins hero opps :
  opps ≠ [] →
  count_win wins hero opps
  = Ok (if decide (Forall (λ o, hero ≤ o) opps) then wins + 1 else wins).
Proof.
  intros Hne. destruct (py_min_spec opps Hne) as (best & Hmin & Hin & Hleast).
  unfold count_win. rewrite Hmin. f_equal.
  destruct (Z.leb_spec hero best) as [Hle|Hgt];
    destruct (decide (Forall (λ o, hero ≤ o) opps)) as [Hall|Hall]; try done.
  - exfalso. apply Hall, Forall_forall. intros o Ho. specialize (Hleast o Ho). lia.
  - rewrite Forall_forall in Hall. specialize (Hall best Hin). lia.
Qed.

(** C2, as the code has it. A trial counts as a win exactly when the hero's
    score is at most every opponent's score, so a trial in which the hero ties
    the best opponent counts as a full win; otherwise the counter is left as
    it was. *)
Theorem count_win_counts_ties (wins hero : Z) (opps : list Z) :
  opps ≠ [] →
  count_win wins hero opps
  = Ok (if decide (Forall (λ o, hero ≤ o) opps) then wins + 1 else wins).
Proof. apply count_win_Forall. Qed.

Lemma count_win_counts_ties_witness : count_win 7 1 [1; 3] = Ok 8.
Proof. apply (count_win_counts_ties 7 1 [1; 3]). discriminate. Defined.

(** C2 as stated fails: with the hero and the only opponent both at score 1
    the counter goes up, though the hero's score is not strictly lower. *)
Lemma count_win_tie_not_strict :
  ¬ (∀ wins hero opps wins',
       count_win wins hero opps = Ok wins' →
       wins' = wins + 1 → Forall (λ o, hero < o) opps).
Proof.
  intros Hclaim. specialize (Hclaim 0 1 [1] 1 eq_refl eq_refl).
  apply Forall_cons_1 in Hclaim as [Hlt _]. lia.
Qed.

(** ** The trial loop *)

Section TrialLoop.
Context {R : Random}.
Variable evaluate : list card → list card → Z.

Lemma trial_inv board_cards num_players st g st' g' :
  trial evaluate board_cards num_players st g = (Ok st', g') →
  ∃ d, deal_trial (deck_cards st) board_cards num_players g = (Ok d, g')
    ∧ count_win (wins st) (hero_score evaluate st d) (opponent_scores evaluate st d) = Ok (wins st')
    ∧ same_shared st st'.
Proof.
  unfold trial, bind, lift, ret.
  destruct (deal_trial _ _ _ g) as [[d|e] g1] eqn:Hd; [|done].
  destruct (count_win _ _ _) as [w|e] eqn:Hw; [|done].
  intros [= <- <-]. exists d. by repeat split.
Qed.

Lemma trial_complete board_cards num_players st g d g' :
  deal_trial (deck_cards st) board_cards num_players g = (Ok d, g') →
  opponents_hands d ≠ [] →
  ∃ st', trial evaluate board_cards num_players st g = (Ok st', g').
Proof.
  intros Hd Hne. unfold trial, bind, lift, ret. rewrite Hd.
  rewrite count_win_Forall; [eauto|].
  unfold opponent_scores. destruct (opponents_hands d); done.
Qed.

Lemma run_trials_inv n board_cards num_players st g st' g' :
  run_trials evaluate n board_cards num_players st g = (Ok st', g') →
  same_shared st st' ∧ wins st ≤ wins st' ≤ wins st + Z.of_nat n.
Proof.
  revert st g. induction n as [|n IH]; intros st g; simpl.
  - intros [= <- <-]. split; [by repeat split | lia].
  - unfold bind at 1.
    destruct (trial _ _ _ st g) as [[st1|e] g1] eqn:Ht; [|done].
    intros Hrun. apply trial_inv in Ht as (d & _ & Hw & Hs1 & Hs2 & Hs3).
    apply count_win_bounds in Hw.
    destruct (IH _ _ Hrun) as [(Hr1 & Hr2 & Hr3) Hwins].
    split; [|lia]. repeat split; congruence.
Qed.

(** The loop is the loop of one trial after another: the state after [n + 1]
    trials is the state after [n] trials put through one more. *)
Lemma run_trials_succ n board_cards num_players st :
  ∀ g, run_trials evaluate (S n) board_cards num_players st g
       = bind (run_trials evaluate n board_cards num_players st)
              (trial evaluate board_cards num_players) g.
Proof.
  revert st. induction n as [|n IH]; intros st g.
  - simpl. unfold bind, ret.
    by destruct (trial _ _ _ st g) as [[?|?] ?].
  - simpl in *. unfold bind in *.
    destruct (trial _ _ _ st g) as [[st1|e] g1]; [|done].
    apply IH.
Qed.

Context {laws : RandomLaws R}.

Lemma trial_total board_cards num_players st g :
  deck_covers (deck_cards st) board_cards num_players →
  2 ≤ num_players →
  ∃ st' g', trial evaluate board_cards num_players st g = (Ok st', g').
Proof.
  intros (Hnd & Hdeck & Hboard & Hcover) Hnp.
  destruct (deal_trial_total (deck_cards st) board_cards num_players g)
    as (d & g' & Hd); [done | done | done | lia |].
  destruct (trial_complete _ _ _ _ _ _ Hd) as [st' Ht]; [|eauto].
  apply deal_trial_inv in Hd as (Hlen & _).
  destruct (opponents_hands d); [simpl in Hlen; lia | done].
Qed.

Lemma run_trials_total n board_cards num_players st g :
  deck_covers (deck_cards st) board_cards num_players →
  2 ≤ num_players →
  ∃ st' g', run_trials evaluate n board_cards num_players st g = (Ok st', g').
Proof.
  intros Hcov Hnp. revert st g Hcov. induction n as [|n IH]; intros st g Hcov; simpl.
  - unfold ret. eauto.
  - unfold bind.
    destruct (trial_total board_cards num_players st g Hcov Hnp) as (st1 & g1 & Ht).
    rewrite Ht. apply IH.
    apply trial_inv in Ht as (_ & _ & _ & -> & _). done.
Qed.

End TrialLoop.

(** ** Converting the input *)

Lemma new_all_valid cards :
  Forall valid_token cards → ∃ ints, new_all cards = Ok ints.
Proof.
  induction 1 as [|s rest Hs _ [ints IH]]; simpl; [eauto|].
  destruct (new_valid_token s Hs) as (c & -> & _). rewrite IH. eauto.
Qed.

Lemma converts_to_deck cards ints :
  converts_to cards ints → ∀ c, c ∈ ints → c ∈ GetFullDeck.
Proof.
  induction 1 as [|s c rest ints Hs _ IH]; intros x Hx; [by inv Hx|].
  apply elem_of_cons in Hx as [->|Hx]; [|auto].
  by destruct (new_Ok_token s c Hs) as (_ & _ & _ & ?).
Qed.

Lemma converts_to_source cards ints c :
  converts_to cards ints → c ∈ ints → ∃ s, s ∈ cards ∧ Card.new s = Ok c.
Proof.
  induction 1 as [|s c' rest ints Hs _ IH]; intros Hc; [by inv Hc|].
  apply elem_of_cons in Hc as [->|Hc].
  - exists s. split; [left | done].
  - destruct (IH Hc) as (s' & ? & ?). exists s'. split; [by right | done].
Qed.

Lemma converts_to_NoDup cards ints :
  converts_to cards ints → Forall valid_token cards → NoDup cards → NoDup ints.
Proof.
  induction 1 as [|s c rest ints Hs Hrest IH]; intros Hvalid Hnd; [constructor|].
  apply Forall_cons_1 in Hvalid as [Hv Hvalid].
  apply NoDup_cons in Hnd as [Hnotin Hnd].
  apply NoDup_cons. split; [|auto].
  intros Hc. destruct (converts_to_source _ _ _ Hrest Hc) as (s' & Hin & Hs').
  assert (s' = s) as ->; [|done].
  apply new_inj_valid; [|done|congruence].
  rewrite Forall_forall in Hvalid. auto.
Qed.

Lemma convert_cards_Ok hole_cards board_cards hole board :
  convert_cards hole_cards board_cards = Ok (hole, board) ↔
  converts_to hole_cards hole ∧ converts_to board_cards board.
Proof.
  unfold convert_cards, converts_to. rewrite <- !new_all_Forall2. split.
  - destruct (new_all hole_cards) as [h|[]]; try done.
    destruct (new_all board_cards) as [b|[]]; try done.
    by intros [= -> ->].
  - by intros [-> ->].
Qed.

Lemma convert_cards_valid hole_cards board_cards :
  Forall valid_token (hole_cards ++ board_cards) →
  ∃ hole board, convert_cards hole_cards board_cards = Ok (hole, board).
Proof.
  intros Hvalid. apply Forall_app in Hvalid as [Hh Hb].
  destruct (new_all_valid _ Hh) as [hole Hhole].
  destruct (new_all_valid _ Hb) as [board Hboard].
  exists hole, board. apply convert_cards_Ok.
  by rewrite <- !new_all_Forall2.
Qed.

(** ** Setting up the deck *)

Section Setup.
Context {R : Random}.

(** What [setup] has established when the loop starts. *)
Lemma setup_inv hole_cards board_cards g st g' :
  setup hole_cards board_cards g = (Ok st, g') →
  g' = (shuffle GetFullDeck g).2
  ∧ convert_cards hole_cards board_cards = Ok (hole_card_ints st, board_card_ints st)
  ∧ remove_used (shuffle GetFullDeck g).1 (hole_card_ints st ++ board_card_ints st)
    = Ok (deck_cards st)
  ∧ wins st = 0.
Proof.
  unfold setup, bind, Deck_new, lift, ret.
  destruct (shuffle GetFullDeck g) as [deck g1]. simpl.
  destruct (convert_cards hole_cards board_cards) as [[hole board]|e]; [|done].
  simpl. destruct (remove_used deck (hole ++ board)) as [deck'|e] eqn:Hrm; [|done].
  by intros [= <- <-].
Qed.

Lemma setup_Err hole_cards board_cards g hole board e :
  convert_cards hole_cards board_cards = Ok (hole, board) →
  remove_used (shuffle GetFullDeck g).1 (hole ++ board) = Err e →
  setup hole_cards board_cards g = (Err e, (shuffle GetFullDeck g).2).
Proof.
  intros Hconv Hrm. unfold setup, bind, Deck_new, lift, ret.
  destruct (shuffle GetFullDeck g) as [deck g1]. simpl in *.
  rewrite Hconv. simpl. by rewrite Hrm.
Qed.

Context {laws : RandomLaws R}.

Lemma setup_deck hole_cards board_cards g st g' :
  setup hole_cards board_cards g = (Ok st, g') →
  GetFullDeck ≡ₚ (hole_card_ints st ++ board_card_ints st) ++ deck_cards st.
Proof.
  intros Hs. apply setup_inv in Hs as (_ & _ & Hrm & _).
  apply remove_used_Ok in Hrm. rewrite <- Hrm. symmetry. apply shuffle_perm.
Qed.

Lemma setup_valid hole_cards board_cards g :
  valid_input hole_cards board_cards →
  ∃ st, setup hole_cards board_cards g = (Ok st, (shuffle GetFullDeck g).2)
    ∧ NoDup (deck_cards st)
    ∧ Z.of_nat (length (deck_cards st)) = 50 - Z.of_nat (length board_cards)
    ∧ length (board_card_ints st) = length board_cards
    ∧ wins st = 0.
Proof.
  intros (Hhole & Hboard & Hvalid & Hnd).
  apply validate_cards_Forall in Hvalid.
  destruct (convert_cards_valid _ _ Hvalid) as (hole & board & Hconv).
  pose proof Hconv as Hconv'. apply convert_cards_Ok in Hconv' as [Hh Hb].
  assert (converts_to (hole_cards ++ board_cards) (hole ++ board)) as Hall
    by (by apply Forall2_app).
  pose proof (converts_to_NoDup _ _ Hall Hvalid Hnd) as Hnd'.
  pose proof (shuffle_perm GetFullDeck g) as Hperm.
  destruct (remove_used_total (shuffle GetFullDeck g).1 (hole ++ board) Hnd')
    as [deck' Hrm].
  { intros c Hc. rewrite Hperm. by eapply converts_to_deck. }
  exists {| deck_cards := deck'; hole_card_ints := hole;
            board_card_ints := board; wins := 0 |}.
  assert (setup hole_cards board_cards g
          = (Ok {| deck_cards := deck'; hole_card_ints := hole;
                   board_card_ints := board; wins := 0 |},
             (shuffle GetFullDeck g).2)) as Hsetup.
  { unfold setup, bind, Deck_new, lift, ret.
    destruct (shuffle GetFullDeck g) as [deck g1]. simpl in *.
    rewrite Hconv. simpl. by rewrite Hrm. }
  split; [done|]. simpl.
  apply remove_used_Ok in Hrm. rewrite Hperm in Hrm.
  pose proof GetFullDeck_NoDup as Hfull. rewrite Hrm in Hfull.
  apply NoDup_app in Hfull as (_ & _ & Hdeck).
  apply Permutation_length in Hrm. rewrite GetFullDeck_length, !length_app in Hrm.
  apply Forall2_length in Hh, Hb.
  repeat split; [done | lia | done].
Qed.

End Setup.

(** ** The percentage *)

Lemma percentage_bounds wins num_simulations :
  0 < num_simulations →
  0 ≤ wins ≤ num_simulations →
  ∃ p, percentage wins num_simulations = Ok p ∧ (0 <= p)%Q ∧ (p <= inject_Z 100)%Q.
Proof.
  intros Hn Hw. unfold percentage.
  destruct (Z.eqb_spec num_simulations 0) as [?|_]; [lia|].
  eexists. split; [reflexivity|].
  destruct num_simulations as [|n|n]; try lia.
  unfold Qle, Qmult, Qdiv, Qinv, inject_Z. simpl. split; nia.
Qed.

(** ** The whole computation *)

Section Calculate.
Context {R : Random} {laws : RandomLaws R}.
Variable evaluate : list card → list card → Z.

Lemma setup_covers hole_cards board_cards g st g' num_players :
  valid_input hole_cards board_cards →
  setup hole_cards board_cards g = (Ok st, g') →
  num_players ≤ 23 →
  deck_covers (deck_cards st) board_cards num_players.
Proof.
  intros Hvalid Hs Hnp.
  destruct (setup_valid hole_cards board_cards g Hvalid)
    as (st0 & Hs0 & Hnd & Hlen & _).
  rewrite Hs in Hs0. injection Hs0 as <- _.
  destruct Hvalid as (_ & Hboard & _).
  repeat split; [done | lia | done | lia].
Qed.

(** With a valid input, at least two and at most 23 players and a positive
    number of simulations, the computation returns a percentage. *)
Lemma calculate_returns hole_cards board_cards num_players num_simulations g :
  valid_input hole_cards board_cards →
  2 ≤ num_players ≤ 23 →
  0 < num_simulations →
  ∃ p g', calculate_win_probability evaluate hole_cards board_cards
            num_players num_simulations g = (Ok p, g')
    ∧ (0 <= p)%Q ∧ (p <= inject_Z 100)%Q.
Proof.
  intros Hvalid Hnp Hns.
  destruct (setup_valid hole_cards board_cards g Hvalid) as (st & Hs & _ & _ & _ & Hw0).
  pose proof (setup_covers _ _ _ _ _ num_players Hvalid Hs ltac:(lia)) as Hcov.
  destruct (run_trials_total evaluate (Z.to_nat num_simulations) board_cards
              num_players st (shuffle GetFullDeck g).2 Hcov ltac:(lia))
    as (st' & g' & Hrun).
  pose proof (run_trials_inv _ _ _ _ _ _ _ _ Hrun) as [_ Hwins].
  destruct (percentage_bounds (wins st') num_simulations Hns ltac:(lia))
    as (p & Hp & Hbounds).
  exists p, g'. split; [|done].
  unfold calculate_win_probability, bind, lift. by rewrite Hs, Hrun, Hp.
Qed.

End Calculate.

(** C10. For a valid input, a player count the form allows and a positive
    number of simulations, the value returned is between 0 and 100. *)
Theorem win_probability_between_0_and_100
    {R : Random} {laws : RandomLaws R} (evaluate : list card → list card → Z)
    (hole_cards board_cards : list string) (num_players num_simulations : Z)
    (g : rng) :
  valid_input hole_cards board_cards →
  2 ≤ num_players ≤ 10 →
  0 < num_simulations →
  ∃ p g', calculate_win_probability evaluate hole_cards board_cards
            num_players num_simulations g = (Ok p, g')
    ∧ (0 <= p)%Q ∧ (p <= inject_Z 100)%Q.
Proof. intros Hvalid Hnp Hns. apply calculate_returns; [done | lia | done]. Qed.

Ltac solve_valid_input :=
  split; [reflexivity|];
  split; [simpl; lia|];
  split; [reflexivity|];
  apply (bool_decide_unpack _); vm_compute; exact I.

Lemma win_probability_between_0_and_100_witness :
  ∃ p g', calculate_win_probability (R := TapeRandom) rank_sum_evaluate
            ["As"; "Kd"]%string ["Qs"; "Jh"; "9d"]%string 3 5 (seeded_tape 100 1)
          = (Ok p, g')
    ∧ (0 <= p)%Q ∧ (p <= inject_Z 100)%Q.
Proof.
  apply (win_probability_between_0_and_100 (R := TapeRandom) rank_sum_evaluate
           ["As"; "Kd"]%string ["Qs"; "Jh"; "9d"]%string 3 5 (seeded_tape 100 1)).
  - solve_valid_input.
  - lia.
  - lia.
Defined.

Section PlayerCount.
Context {R : Random} {laws : RandomLaws R}.
Variable evaluate : list card → list card → Z.

(** With no opponent the first trial raises at [min]. *)
Lemma trial_no_opponent board_cards num_players st g :
  deck_covers (deck_cards st) board_cards 1 →
  num_players ≤ 1 →
  ∃ g', trial evaluate board_cards num_players st g
        = (Err (ValueError MinOfEmpty), g').
Proof.
  intros (Hnd & Hdeck & Hboard & Hcover) Hnp.
  unfold trial, deal_trial, bind, lift, ret.
  replace (Z.to_nat (num_players - 1)) with O by lia.
  cbn [deal_opponents]. unfold ret. change (concat []) with (@nil card).
  pose proof (filter_not_in_length (deck_cards st) [] Hnd) as Hfilter.
  cbn [length] in Hfilter.
  destruct (sample_total (filter (λ c, c ∉ []) (deck_cards st))
              (5 - Z.of_nat (length board_cards)) g)
    as (rest & g' & Hs & _).
  { lia. }
  rewrite Hs. simpl. eauto.
Qed.

Lemma calculate_no_opponent hole_cards board_cards num_players num_simulations g :
  valid_input hole_cards board_cards →
  num_players ≤ 1 →
  0 < num_simulations →
  ∃ g', calculate_win_probability evaluate hole_cards board_cards
          num_players num_simulations g
        = (Err (ValueError MinOfEmpty), g').
Proof.
  intros Hvalid Hnp Hns.
  destruct (setup_valid hole_cards board_cards g Hvalid) as (st & Hs & _).
  pose proof (setup_covers _ _ _ _ _ 1 Hvalid Hs ltac:(lia)) as Hcov.
  destruct (trial_no_opponent board_cards num_players st
              (shuffle GetFullDeck g).2 Hcov Hnp) as [g' Ht].
  exists g'. unfold calculate_win_probability, bind at 1 2. rewrite Hs.
  destruct (Z.to_nat num_simulations) as [|n] eqn:En; [lia|].
  simpl. unfold bind at 1. by rewrite Ht.
Qed.

End PlayerCount.

(** C3, as the code has it. [calculate_win_probability] does not check the
    player count. With valid cards and a positive number of simulations, a
    call with 11 to 23 players runs its trials and returns a percentage
    between 0 and 100; a call with at most one player raises only inside the
    first trial, the [ValueError] of [min] on an empty list. *)
Theorem player_count_is_not_checked
    {R : Random} {laws : RandomLaws R} (evaluate : list card → list card → Z)
    (hole_cards board_cards : list string) (num_players num_simulations : Z)
    (g : rng) :
  valid_input hole_cards board_cards →
  0 < num_simulations →
  (10 < num_players ≤ 23 →
     ∃ p g', calculate_win_probability evaluate hole_cards board_cards
               num_players num_simulations g = (Ok p, g')
       ∧ (0 <= p)%Q ∧ (p <= inject_Z 100)%Q)
  ∧ (num_players ≤ 1 →
     ∃ g', calculate_win_probability evaluate hole_cards board_cards
             num_players num_simulations g
           = (Err (ValueError MinOfEmpty), g')).
Proof.
  intros Hvalid Hns. split; intros Hnp.
  - apply calculate_returns; [done | lia | done].
  - by apply calculate_no_opponent.
Qed.

Lemma player_count_is_not_checked_witness :
  (10 < 11 ≤ 23 →
     ∃ p g', calculate_win_probability (R := TapeRandom) rank_sum_evaluate
               ["As"; "Kd"]%string [] 11 2 (seeded_tape 110 1) = (Ok p, g')
       ∧ (0 <= p)%Q ∧ (p <= inject_Z 100)%Q)
  ∧ (11 ≤ 1 →
     ∃ g', calculate_win_probability (R := TapeRandom) rank_sum_evaluate
             ["As"; "Kd"]%string [] 11 2 (seeded_tape 110 1)
           = (Err (ValueError MinOfEmpty), g')).
Proof.
  apply (player_count_is_not_checked (R := TapeRandom) rank_sum_evaluate
           ["As"; "Kd"]%string [] 11 2 (seeded_tape 110 1)).
  - solve_valid_input.
  - lia.
Defined.

(** C3 as stated fails: with 11 players the call raises nothing and returns
    a percentage. *)
Lemma eleven_players_returns :
  ∃ p, (calculate_win_probability (R := TapeRandom) rank_sum_evaluate
          ["As"; "Kd"]%string [] 11 2 (seeded_tape 110 1)).1
       = Ok p.
Proof. eexists. vm_compute. reflexivity. Qed.

(** C5. When the converted hero and board cards hold the same card twice, the
    call raises the [ValueError] of line 55 naming a card that occurs earlier
    in the input, and the random source has only been used to shuffle the new
    deck: no trial has run. *)
Theorem repeated_card_raises
    {R : Random} {laws : RandomLaws R} (evaluate : list card → list card → Z)
    (hole_cards board_cards : list string) (num_players num_simulations : Z)
    (g : rng) (hole board : list card) :
  convert_cards hole_cards board_cards = Ok (hole, board) →
  ¬ NoDup (hole ++ board) →
  ∃ l1 c l2,
    hole ++ board = l1 ++ c :: l2
    ∧ c ∈ l1
    ∧ Card.new (Card.int_to_str c) = Ok c
    ∧ calculate_win_probability evaluate hole_cards board_cards
        num_players num_simulations g
      = (Err (ValueError (CardNotAvailable (Card.int_to_str c))),
         (shuffle GetFullDeck g).2).
Proof.
  intros Hconv Hdup.
  pose proof (shuffle_perm GetFullDeck g) as Hperm.
  destruct (remove_used (shuffle GetFullDeck g).1 (hole ++ board))
    as [deck'|e] eqn:Hrm.
  { exfalso. apply Hdup. apply remove_used_Ok in Hrm.
    rewrite Hperm in Hrm. pose proof GetFullDeck_NoDup as Hfull.
    rewrite Hrm in Hfull. by apply NoDup_app in Hfull as (? & _). }
  destruct (remove_used_Err _ _ _ Hrm) as (l1 & c & l2 & Hsplit & Hc & ->).
  assert (c ∈ GetFullDeck) as Hfull.
  { pose proof Hconv as [Hh Hb]%convert_cards_Ok.
    apply (converts_to_deck (hole_cards ++ board_cards) (hole ++ board));
      [by apply Forall2_app|].
    rewrite Hsplit. apply elem_of_app. right. left. }
  exists l1, c, l2. split; [done|]. split.
  { destruct Hc as [?|Hc]; [done|]. exfalso. apply Hc. by rewrite Hperm. }
  split; [by apply int_to_str_new|].
  unfold calculate_win_probability, bind.
  by rewrite (setup_Err _ _ _ _ _ _ Hconv Hrm).
Qed.

Lemma repeated_card_raises_witness :
  ∃ l1 c l2,
    [268442665; 134236965] ++ [67115551; 268442665; 8406803] = l1 ++ c :: l2
    ∧ c ∈ l1
    ∧ Card.new (Card.int_to_str c) = Ok c
    ∧ calculate_win_probability (R := TapeRandom) rank_sum_evaluate
        ["As"; "Kd"]%string ["Qs"; "As"; "9d"]%string 2 100 (seeded_tape 60 1)
      = (Err (ValueError (CardNotAvailable (Card.int_to_str c))),
         (shuffle (Random := TapeRandom) GetFullDeck (seeded_tape 60 1)).2).
Proof.
  apply (repeated_card_raises (R := TapeRandom) rank_sum_evaluate
           ["As"; "Kd"]%string ["Qs"; "As"; "9d"]%string 2 100 (seeded_tape 60 1)
           [268442665; 134236965] [67115551; 268442665; 8406803]).
  - reflexivity.
  - apply (bool_decide_unpack _). vm_compute. exact I.
Defined.

(** C7. For a valid input, after any number of trials the deck, the hero's
    cards and the known board are what [setup] left: the loop changes the win
    counter only. *)
Theorem trial_loop_keeps_shared_state
    {R : Random} {laws : RandomLaws R} (evaluate : list card → list card → Z)
    (hole_cards board_cards : list string) (num_players : Z) (g : rng) :
  valid_input hole_cards board_cards →
  2 ≤ num_players ≤ 10 →
  ∃ st g1,
    setup hole_cards board_cards g = (Ok st, g1)
    ∧ ∀ n : nat,
        ∃ st' g',
          run_trials evaluate n board_cards num_players st g1 = (Ok st', g')
          ∧ deck_cards st' = deck_cards st
          ∧ hole_card_ints st' = hole_card_ints st
          ∧ board_card_ints st' = board_card_ints st.
Proof.
  intros Hvalid Hnp.
  destruct (setup_valid hole_cards board_cards g Hvalid) as (st & Hs & _).
  exists st, (shuffle GetFullDeck g).2. split; [done|]. intros n.
  pose proof (setup_covers _ _ _ _ _ num_players Hvalid Hs ltac:(lia)) as Hcov.
  destruct (run_trials_total evaluate n board_cards num_players st
              (shuffle GetFullDeck g).2 Hcov ltac:(lia)) as (st' & g' & Hrun).
  exists st', g'. split; [done|].
  by apply run_trials_inv in Hrun as [? _].
Qed.

Lemma trial_loop_keeps_shared_state_witness :
  ∃ st g1,
    setup (R := TapeRandom) ["As"; "Kd"]%string ["Qs"; "Jh"; "9d"]%string
      (seeded_tape 100 1) = (Ok st, g1)
    ∧ ∀ n : nat,
        ∃ st' g',
          run_trials (R := TapeRandom) rank_sum_evaluate n
            ["Qs"; "Jh"; "9d"]%string 3 st g1 = (Ok st', g')
          ∧ deck_cards st' = deck_cards st
          ∧ hole_card_ints st' = hole_card_ints st
          ∧ board_card_ints st' = board_card_ints st.
Proof.
  apply (trial_loop_keeps_shared_state (R := TapeRandom) rank_sum_evaluate
           ["As"; "Kd"]%string ["Qs"; "Jh"; "9d"]%string 3 (seeded_tape 100 1)).
  - solve_valid_input.
  - lia.
Defined.

(** C8. With five known board cards, every deal (whatever the state of the
    random source) draws no board card: the final board is the known board,
    and only the [num_players - 1] opponent hands are sampled. *)
Theorem full_board_draws_no_card
    {R : Random} {laws : RandomLaws R}
    (hole_cards board_cards : list string) (g : rng) :
  valid_input hole_cards board_cards →
  length board_cards = 5%nat →
  ∃ st g1,
    setup hole_cards board_cards g = (Ok st, g1)
    ∧ ∀ (num_players : Z) (g' : rng),
        ∃ d g'',
          deal_trial (deck_cards st) board_cards num_players g' = (Ok d, g'')
          ∧ remaining_board d = []
          ∧ final_board st d = board_card_ints st
          ∧ length (opponents_hands d) = Z.to_nat (num_players - 1).
Proof.
  intros Hvalid Hfive.
  destruct (setup_valid hole_cards board_cards g Hvalid)
    as (st & Hs & Hnd & Hlen & _).
  exists st, (shuffle GetFullDeck g).2. split; [done|]. intros num_players g'.
  unfold deal_trial, bind.
  destruct (deal_opponents_total (deck_cards st) (Z.to_nat (num_players - 1)) g')
    as (opps & g1 & -> & Hn & _); [lia|].
  destruct (sample_total (filter (λ c, c ∉ concat opps) (deck_cards st))
              (5 - Z.of_nat (length board_cards)) g1)
    as (rest & g2 & -> & Hrest & _); [lia|].
  exists {| opponents_hands := opps; remaining_board := rest |}, g2.
  assert (rest = []) as -> by (destruct rest; [done | simpl in Hrest; lia]).
  unfold final_board, ret. simpl. by rewrite app_nil_r.
Qed.

Lemma full_board_draws_no_card_witness :
  ∃ st g1,
    setup (R := TapeRandom) ["As"; "Kd"]%string
      ["Qs"; "Jh"; "9d"; "2c"; "7h"]%string (seeded_tape 100 1) = (Ok st, g1)
    ∧ ∀ (num_players : Z) (g' : rng),
        ∃ d g'',
          deal_trial (R := TapeRandom) (deck_cards st)
            ["Qs"; "Jh"; "9d"; "2c"; "7h"]%string num_players g' = (Ok d, g'')
          ∧ remaining_board d = []
          ∧ final_board st d = board_card_ints st
          ∧ length (opponents_hands d) = Z.to_nat (num_players - 1).
Proof.
  apply (full_board_draws_no_card (R := TapeRandom) ["As"; "Kd"]%string
           ["Qs"; "Jh"; "9d"; "2c"; "7h"]%string (seeded_tape 100 1)).
  - solve_valid_input.
  - reflexivity.
Defined.

(** ** What a deal keeps apart, and what it does not *)

Lemma deal_trial_separation
    {R : Random} {laws : RandomLaws R}
    (hole_cards board_cards : list string) (num_players : Z)
    (g g1 g' g'' : rng) (st : sim_state) (d : deal) :
  setup hole_cards board_cards g = (Ok st, g1) →
  deal_trial (deck_cards st) board_cards num_players g' = (Ok d, g'') →
  Forall NoDup (opponents_hands d)
  ∧ NoDup (remaining_board d)
  ∧ (∀ c, c ∈ remaining_board d → c ∉ concat (opponents_hands d))
  ∧ (∀ c, c ∈ concat (opponents_hands d) ++ remaining_board d →
          c ∉ hole_card_ints st ++ board_card_ints st).
Proof.
  intros Hs Hd. apply setup_deck in Hs.
  pose proof GetFullDeck_NoDup as Hfull. rewrite Hs in Hfull.
  apply NoDup_app in Hfull as (_ & Hdisj & Hnd).
  apply deal_trial_inv in Hd as (_ & Hhands & _ & Hrest).
  assert (∀ c, c ∈ concat (opponents_hands d) → c ∈ deck_cards st) as Hopp.
  { intros c Hc. apply list_elem_of_In, in_concat in Hc as (h & Hh & Hc).
    apply list_elem_of_In in Hh, Hc. rewrite Forall_forall in Hhands.
    destruct (Hhands h Hh) as [_ Hsub]. by eapply elem_of_submseteq. }
  assert (∀ c, c ∈ remaining_board d →
               (c ∉ concat (opponents_hands d)) ∧ c ∈ deck_cards st) as Hboard.
  { intros c Hc. eapply elem_of_submseteq in Hc; [|exact Hrest].
    by apply list_elem_of_filter in Hc. }
  split; [|split; [|split] ].
  - eapply Forall_impl; [exact Hhands|]. intros h [_ Hsub].
    by eapply submseteq_NoDup.
  - eapply submseteq_NoDup; [exact Hrest|]. by apply NoDup_filter.
  - intros c Hc. by apply Hboard.
  - intros c Hc Hused. apply (Hdisj c Hused).
    apply elem_of_app in Hc as [Hc|Hc]; [by apply Hopp | by apply Hboard].
Qed.

(** C1, at a failing draw. Hero As Kd, no board, three players: the two
    opponent hands are sampled one after the other from the same deck, and
    here both hold the five of diamonds. *)
Lemma opponents_hands_share_a_card :
  ∃ st g1 d g2,
    setup (R := TapeRandom) ["As"; "Kd"]%string []
      (seeded_tape 52 1 ++ [7; 3; 7; 11; 0; 1; 2; 3; 4]%nat) = (Ok st, g1)
    ∧ deal_trial (R := TapeRandom) (deck_cards st) [] 3 g1 = (Ok d, g2)
    ∧ map (map Card.int_to_str) (opponents_hands d)
      = [["5d"; "7s"]; ["5d"; "2s"]]%string
    ∧ ¬ NoDup (concat (opponents_hands d)).
Proof.
  do 4 eexists. split; [vm_compute; reflexivity|].
  split; [vm_compute; reflexivity|].
  split; [vm_compute; reflexivity|].
  apply (bool_decide_unpack _). vm_compute. exact I.
Qed.

(** * Further properties of the code *)

(** ** Conversion of the tokens, lines 44-48 *)

Lemma int_to_str_valid_token t c :
  valid_token t → Card.new t = Ok c → Card.int_to_str c = t.
Proof.
  rewrite valid_token_all_tokens. revert t c.
  assert (forallb (λ t, match Card.new t with
                        | Ok c => String.eqb (Card.int_to_str c) t
                        | Err _ => false
                        end) all_tokens = true) as Hall
    by (vm_compute; reflexivity).
  intros t c Hin Hnew. rewrite forallb_forall in Hall.
  specialize (Hall t (proj1 (list_elem_of_In _ _) Hin)).
  rewrite Hnew in Hall. by apply String.eqb_eq.
Qed.

Lemma new_all_round_trip cards ints :
  Forall valid_token cards → new_all cards = Ok ints →
  Card.int_to_str <$> ints = cards.
Proof.
  intros Hvalid Hnew. apply new_all_Forall2 in Hnew.
  induction Hnew as [|t c cards ints Ht _ IH]; [done|].
  apply Forall_cons_1 in Hvalid as [Hv Hvalid]. csimpl.
  by rewrite (int_to_str_valid_token t c Hv Ht), IH.
Qed.

Lemma new_all_app l1 l2 :
  new_all (l1 ++ l2)
  = match new_all l1 with
    | Err e => Err e
    | Ok a =>
        match new_all l2 with
        | Err e => Err e
        | Ok b => Ok (a ++ b)
        end
    end.
Proof.
  induction l1 as [|s l1 IH]; simpl.
  - by destruct (new_all l2).
  - destruct (Card.new s); [|done]. rewrite IH.
    destruct (new_all l1); [|done]. by destruct (new_all l2).
Qed.

Lemma convert_cards_new_all hole_cards board_cards :
  convert_cards hole_cards board_cards
  = match new_all (hole_cards ++ board_cards) with
    | Ok ints => Ok (take (length hole_cards) ints, drop (length hole_cards) ints)
    | Err e => Err (reraised e)
    end.
Proof.
  unfold convert_cards. rewrite new_all_app.
  destruct (new_all hole_cards) as [a|[]] eqn:Ha; try done.
  apply new_all_Forall2, Forall2_length in Ha.
  destruct (new_all board_cards) as [b|[]]; try done.
  by rewrite Ha, take_app_length, drop_app_length.
Qed.

Lemma new_all_first_error l1 ints s l2 e :
  new_all l1 = Ok ints → Card.new s = Err e → new_all (l1 ++ s :: l2) = Err e.
Proof. intros H1 Hs. rewrite new_all_app, H1. simpl. by rewrite Hs. Qed.

Lemma calculate_conversion_error
    {R : Random} (evaluate : list card → list card → Z)
    hole_cards board_cards num_players num_simulations g e :
  new_all (hole_cards ++ board_cards) = Err e →
  calculate_win_probability evaluate hole_cards board_cards
    num_players num_simulations g
  = (Err (reraised e), (shuffle GetFullDeck g).2).
Proof.
  intros Hnew. unfold calculate_win_probability, setup, bind, Deck_new, lift.
  destruct (shuffle GetFullDeck g) as [deck g1]. simpl.
  by rewrite convert_cards_new_all, Hnew.
Qed.

(** X1. Tokens that pass [validate_cards] always convert: each becomes a card
    of the deck, [Card.int_to_str] gives the token back, and the cards repeat
    exactly when the tokens do. *)
Theorem validated_tokens_convert (cards : list string) :
  validate_cards cards = true →
  ∃ ints, new_all cards = Ok ints
    ∧ length ints = length cards
    ∧ (∀ c, c ∈ ints → c ∈ GetFullDeck)
    ∧ Card.int_to_str <$> ints = cards
    ∧ (NoDup ints ↔ NoDup cards).
Proof.
  intros Hvalid. apply validate_cards_Forall in Hvalid.
  destruct (new_all_valid cards Hvalid) as [ints Hnew]. exists ints.
  pose proof (proj1 (new_all_Forall2 cards ints) Hnew) as Hconv.
  pose proof (new_all_round_trip cards ints Hvalid Hnew) as Hback.
  split; [done|]. split; [symmetry; by eapply Forall2_length|].
  split; [by apply converts_to_deck with cards|]. split; [done|]. split.
  - intros Hnd. rewrite <- Hback in *. apply NoDup_fmap_2_strong; [|done].
    intros x y Hx Hy Heq.
    assert (Ok x = Ok y) as Hxy; [|by injection Hxy].
    rewrite <- (int_to_str_new x), <- (int_to_str_new y), Heq;
      [done | by eapply converts_to_deck | by eapply converts_to_deck].
  - by apply converts_to_NoDup.
Qed.

Lemma validated_tokens_convert_witness :
  ∃ ints, new_all ["As"; "Kd"; "Qs"]%string = Ok ints
    ∧ length ints = length ["As"; "Kd"; "Qs"]%string
    ∧ (∀ c, c ∈ ints → c ∈ GetFullDeck)
    ∧ Card.int_to_str <$> ints = ["As"; "Kd"; "Qs"]%string
    ∧ (NoDup ints ↔ NoDup ["As"; "Kd"; "Qs"]%string).
Proof.
  apply (validated_tokens_convert ["As"; "Kd"; "Qs"]%string). reflexivity.
Defined.

(** X2. When the first token that does not convert has at least two
    characters, and its first character is an ASCII character that is no
    rank, or a rank followed by an ASCII character that is no suit, the call
    raises [ValueError] "Invalid card" carrying that character, and the random
    source has only shuffled the deck. (A token of fewer than two characters
    raises [IndexError] instead, see X3.) *)
Theorem bad_character_raises_invalid_card
    {R : Random} (evaluate : list card → list card → Z)
    (hole_cards board_cards : list string) (num_players num_simulations : Z)
    (g : rng) (l1 l2 : list string) (ints : list card)
    (r u k : ascii) (rest : string) :
  hole_cards ++ board_cards = l1 ++ String r (String u rest) :: l2 →
  new_all l1 = Ok ints →
  (is_ascii r ∧ (r ∉ list_ascii_of_string "23456789TJQKA") ∧ k = r)
  ∨ (r ∈ list_ascii_of_string "23456789TJQKA"
     ∧ is_ascii u ∧ (u ∉ list_ascii_of_string "shdc") ∧ k = u) →
  calculate_win_probability evaluate hole_cards board_cards
    num_players num_simulations g
  = (Err (ValueError (InvalidCard k)), (shuffle GetFullDeck g).2).
Proof.
  intros Hsplit Hl1 Hbad.
  apply (calculate_conversion_error evaluate _ _ _ _ _ (KeyError k)).
  rewrite Hsplit. apply (new_all_first_error _ ints); [done|].
  unfold Card.new, Card.CHAR_RANK_TO_INT_RANK. simpl String.get. cbv iota.
  destruct (str_index r Card.STR_RANKS) as [i|] eqn:Hr.
  - destruct Hbad as [(_ & Hnr & _)|(_ & _ & Hnu & ->)].
    { exfalso. apply Hnr. by eapply str_index_elem_of. }
    destruct (Card.CHAR_SUIT_TO_INT_SUIT u) as [j|] eqn:Hu; [|done].
    exfalso. apply Hnu. by eapply suit_elem_of.
  - destruct Hbad as [(_ & _ & ->)|(Hin & _)]; [done|]. exfalso.
    clear -Hin Hr. unfold Card.STR_RANKS in Hr.
    apply list_elem_of_In in Hin. simpl in Hin, Hr.
    repeat (destruct Hin as [<-|Hin];
            [by rewrite ?Ascii.eqb_refl in Hr; vm_compute in Hr|]).
    done.
Qed.

Lemma bad_character_raises_invalid_card_witness :
  calculate_win_probability (R := TapeRandom) rank_sum_evaluate
    ["As"; "Kd"]%string ["Qs"; "Xx"; "9d"]%string 2 100 (seeded_tape 60 1)
  = (Err (ValueError (InvalidCard "X")),
     (shuffle (Random := TapeRandom) GetFullDeck (seeded_tape 60 1)).2).
Proof.
  apply (bad_character_raises_invalid_card (R := TapeRandom) rank_sum_evaluate
           ["As"; "Kd"]%string ["Qs"; "Xx"; "9d"]%string 2 100 (seeded_tape 60 1)
           ["As"; "Kd"; "Qs"]%string ["9d"]%string
           [268442665; 134236965; 67115551] "X" "x" "X" EmptyString).
  - reflexivity.
  - reflexivity.
  - left. split; [unfold is_ascii; vm_compute; lia|]. split; [|reflexivity].
    intros Hin. apply list_elem_of_In in Hin. simpl in Hin.
    repeat (destruct Hin as [Hin|Hin]; [discriminate|]). done.
Defined.

(** X3. When the first token that does not convert has fewer than two
    characters, the call raises [IndexError]: the [try] block catches
    [KeyError] only. The random source has only shuffled the deck. *)
Theorem short_token_raises_index_error
    {R : Random} (evaluate : list card → list card → Z)
    (hole_cards board_cards : list string) (num_players num_simulations : Z)
    (g : rng) (l1 l2 : list string) (ints : list card) (s : string) :
  hole_cards ++ board_cards = l1 ++ s :: l2 →
  new_all l1 = Ok ints →
  (String.length s < 2)%nat →
  calculate_win_probability evaluate hole_cards board_cards
    num_players num_simulations g
  = (Err IndexError, (shuffle GetFullDeck g).2).
Proof.
  intros Hsplit Hl1 Hshort.
  apply (calculate_conversion_error evaluate _ _ _ _ _ IndexError).
  rewrite Hsplit. apply (new_all_first_error _ ints); [done|].
  destruct s as [|a [|b rest]]; [done | done | simpl in Hshort; lia].
Qed.

Lemma short_token_raises_index_error_witness :
  calculate_win_probability (R := TapeRandom) rank_sum_evaluate
    ["As"; "K"]%string ["Qs"]%string 2 100 (seeded_tape 60 1)
  = (Err IndexError,
     (shuffle (Random := TapeRandom) GetFullDeck (seeded_tape 60 1)).2).
Proof.
  apply (short_token_raises_index_error (R := TapeRandom) rank_sum_evaluate
           ["As"; "K"]%string ["Qs"]%string 2 100 (seeded_tape 60 1)
           ["As"]%string ["Qs"]%string [268442665] "K"%string).
  - reflexivity.
  - reflexivity.
  - simpl. lia.
Defined.

(** ** Characters after the second *)







(** ** Removal as a filter, lines 50-55 *)

Lemma filter_ext_elem {A} (P Q : A → Prop)
    `{∀ x, Decision (P x)} `{∀ x, Decision (Q x)} (l : list A) :
  (∀ x, x ∈ l → (P x ↔ Q x)) → filter P l = filter Q l.
Proof.
  induction l as [|y l IH]; intros Hpq; [done|].
  rewrite !filter_cons.
  rewrite IH by (intros x Hx; apply Hpq; by right).
  destruct (decide (P y)) as [Hp|Hp], (decide (Q y)) as [Hq|Hq]; try done;
    exfalso; apply (Hpq y) in Hp || apply (Hpq y) in Hq; try done; by left.
Qed.

Lemma remove_first_then_filter (c : card) (rest deck : list card) :
  NoDup deck →
  filter (λ x, x ∉ rest) (list_remove_first c deck)
  = filter (λ x, x ∉ c :: rest) deck.
Proof.
  induction deck as [|y l IH]; intros Hnd; simpl; [done|].
  apply NoDup_cons in Hnd as [Hy Hnd].
  destruct (decide (c = y)) as [->|Hne].
  - rewrite (filter_cons_False _ y) by (intros Hn; apply Hn; left).
    apply filter_ext_elem. intros x Hx. rewrite not_elem_of_cons.
    split; [|by intros [_ ?]]. intros Hr. split; [|done]. by intros ->.
  - rewrite !filter_cons, IH by done.
    destruct (decide (y ∉ rest)) as [Hr|Hr], (decide (y ∉ c :: rest)) as [Hcr|Hcr];
      try done; exfalso.
    + apply Hcr. apply not_elem_of_cons. split; [congruence | done].
    + apply Hr. by apply not_elem_of_cons in Hcr as [_ ?].
Qed.

Lemma remove_used_filter deck used :
  NoDup deck → NoDup used → (∀ c, c ∈ used → c ∈ deck) →
  remove_used deck used = Ok (filter (λ c, c ∉ used) deck).
Proof.
  revert deck. induction used as [|c rest IH]; intros deck Hdeck Hnd Hin; simpl.
  - f_equal. clear. induction deck as [|y l IH]; [done|].
    rewrite filter_cons_True by apply not_elem_of_nil. by rewrite <- IH at 1.
  - apply NoDup_cons in Hnd as [Hc Hnd].
    destruct (decide (c ∈ deck)) as [Hcd|Hcd]; [|exfalso; apply Hcd, Hin; left].
    pose proof (list_remove_first_perm c deck Hcd) as Hperm.
    assert (NoDup (list_remove_first c deck)) as Hnd1.
    { rewrite Hperm in Hdeck. by apply NoDup_cons in Hdeck as [_ ?]. }
    rewrite IH; [by rewrite remove_first_then_filter | done | done |].
    intros x Hx. assert (x ∈ deck) as Hxd by (apply Hin; by right).
    rewrite Hperm in Hxd. apply elem_of_cons in Hxd as [->|]; done.
Qed.

(** X5. On a deck without repeats, removing distinct cards that are all in
    the deck leaves the deck filtered: the remaining cards, in the order they
    had. *)
Theorem removal_keeps_the_other_cards_in_order (deck used : list card) :
  NoDup deck → NoDup used → (∀ c, c ∈ used → c ∈ deck) →
  remove_used deck used = Ok (filter (λ c, c ∉ used) deck).
Proof. apply remove_used_filter. Qed.

Lemma removal_keeps_the_other_cards_in_order_witness :
  remove_used [69634; 73730; 81922; 98306] [81922; 69634]
  = Ok (filter (λ c, c ∉ [81922; 69634]) [69634; 73730; 81922; 98306]).
Proof.
  apply (removal_keeps_the_other_cards_in_order
           [69634; 73730; 81922; 98306] [81922; 69634]).
  - apply (bool_decide_unpack _). vm_compute. exact I.
  - apply (bool_decide_unpack _). vm_compute. exact I.
  - apply Forall_forall. apply (bool_decide_unpack _). vm_compute. exact I.
Defined.

(** X6. On a deck without repeats the removal loop completes exactly when
    the cards to remove are distinct and all in the deck; otherwise it
    raises. *)
Theorem removal_completes_iff (deck used : list card) :
  NoDup deck →
  (∃ deck', remove_used deck used = Ok deck')
  ↔ NoDup used ∧ ∀ c, c ∈ used → c ∈ deck.
Proof.
  intros Hdeck. split.
  - intros [deck' Hrm]. apply remove_used_Ok in Hrm. rewrite Hrm in Hdeck.
    apply NoDup_app in Hdeck as (Hnd & _ & _). split; [done|].
    intros c Hc. rewrite Hrm. apply elem_of_app. by left.
  - intros [Hnd Hin]. by apply remove_used_total.
Qed.

Lemma removal_completes_iff_witness :
  (∃ deck', remove_used [69634; 73730; 81922] [81922; 81922] = Ok deck')
  ↔ NoDup [81922; 81922] ∧ ∀ c, c ∈ [81922; 81922] → c ∈ [69634; 73730; 81922].
Proof.
  apply (removal_completes_iff [69634; 73730; 81922] [81922; 81922]).
  apply (bool_decide_unpack _). vm_compute. exact I.
Defined.

(** ** The state the loop starts from, lines 40-57 *)

Lemma setup_exact
    {R : Random} {laws : RandomLaws R}
    hole_cards board_cards g hole board :
  convert_cards hole_cards board_cards = Ok (hole, board) →
  NoDup (hole ++ board) →
  setup hole_cards board_cards g
  = (Ok {| deck_cards := filter (λ c, c ∉ hole ++ board) (shuffle GetFullDeck g).1;
           hole_card_ints := hole;
           board_card_ints := board;
           wins := 0 |},
     (shuffle GetFullDeck g).2).
Proof.
  intros Hconv Hnd.
  pose proof (shuffle_perm GetFullDeck g) as Hperm.
  assert (remove_used (shuffle GetFullDeck g).1 (hole ++ board)
          = Ok (filter (λ c, c ∉ hole ++ board) (shuffle GetFullDeck g).1)) as Hrm.
  { apply remove_used_filter; [|done|].
    - rewrite Hperm. apply GetFullDeck_NoDup.
    - intros c Hc. rewrite Hperm.
      pose proof Hconv as [Hh Hb]%convert_cards_Ok.
      apply (converts_to_deck (hole_cards ++ board_cards) (hole ++ board));
        [by apply Forall2_app | done]. }
  unfold setup, bind, Deck_new, lift, ret.
  destruct (shuffle GetFullDeck g) as [deck g1]. simpl in *.
  rewrite Hconv. simpl. by rewrite Hrm.
Qed.

(** X7. When the tokens convert to distinct cards, the loop starts from the
    shuffled deck with exactly those cards filtered out, the converted cards
    and a win count of zero. *)
Theorem setup_filters_the_shuffled_deck
    {R : Random} {laws : RandomLaws R}
    (hole_cards board_cards : list string) (g : rng) (hole board : list card) :
  convert_cards hole_cards board_cards = Ok (hole, board) →
  NoDup (hole ++ board) →
  setup hole_cards board_cards g
  = (Ok {| deck_cards := filter (λ c, c ∉ hole ++ board) (shuffle GetFullDeck g).1;
           hole_card_ints := hole;
           board_card_ints := board;
           wins := 0 |},
     (shuffle GetFullDeck g).2).
Proof. apply setup_exact. Qed.

Lemma setup_filters_the_shuffled_deck_witness :
  setup (R := TapeRandom) ["As"; "Kd"]%string ["Qs"]%string (seeded_tape 60 1)
  = (Ok {| deck_cards :=
             filter (λ c, c ∉ [268442665; 134236965] ++ [67115551])
               (shuffle (Random := TapeRandom) GetFullDeck (seeded_tape 60 1)).1;
           hole_card_ints := [268442665; 134236965];
           board_card_ints := [67115551];
           wins := 0 |},
     (shuffle (Random := TapeRandom) GetFullDeck (seeded_tape 60 1)).2).
Proof.
  apply (setup_filters_the_shuffled_deck (R := TapeRandom)
           ["As"; "Kd"]%string ["Qs"]%string (seeded_tape 60 1)
           [268442665; 134236965] [67115551]).
  - reflexivity.
  - apply (bool_decide_unpack _). vm_compute. exact I.
Defined.

(** X8. The set-up completes exactly when every token converts and no card is
    given twice; any number of hole or board cards is let through. *)
Theorem setup_completes_iff
    {R : Random} {laws : RandomLaws R}
    (hole_cards board_cards : list string) (g : rng) :
  (∃ st g', setup hole_cards board_cards g = (Ok st, g'))
  ↔ ∃ hole board, convert_cards hole_cards board_cards = Ok (hole, board)
                  ∧ NoDup (hole ++ board).
Proof.
  split.
  - intros (st & g' & Hs). exists (hole_card_ints st), (board_card_ints st).
    pose proof (setup_deck _ _ _ _ _ Hs) as Hperm.
    apply setup_inv in Hs as (_ & Hconv & _). split; [done|].
    pose proof GetFullDeck_NoDup as Hfull. rewrite Hperm in Hfull.
    by apply NoDup_app in Hfull as (? & _).
  - intros (hole & board & Hconv & Hnd).
    rewrite (setup_exact _ _ g _ _ Hconv Hnd). eauto.
Qed.

Lemma setup_completes_iff_witness :
  (∃ st g', setup (R := TapeRandom) ["As"; "Kd"; "2c"]%string []
              (seeded_tape 60 1) = (Ok st, g'))
  ↔ ∃ hole board,
      convert_cards ["As"; "Kd"; "2c"]%string [] = Ok (hole, board)
      ∧ NoDup (hole ++ board).
Proof.
  apply (setup_completes_iff (R := TapeRandom) ["As"; "Kd"; "2c"]%string []
           (seeded_tape 60 1)).
Defined.

(** ** A token given twice *)

Lemma int_to_str_inj_deck x y :
  x ∈ GetFullDeck → y ∈ GetFullDeck →
  Card.int_to_str x = Card.int_to_str y → x = y.
Proof.
  intros Hx Hy Heq. apply Ok_inj.
  by rewrite <- (int_to_str_new x Hx), <- (int_to_str_new y Hy), Heq.
Qed.

Lemma remove_used_first_failure deck used e :
  remove_used deck used = Err e →
  ∃ l1 c l2 d, used = l1 ++ c :: l2
    ∧ remove_used deck l1 = Ok d
    ∧ (c ∉ d)
    ∧ e = ValueError (CardNotAvailable (Card.int_to_str c)).
Proof.
  revert deck. induction used as [|c rest IH]; simpl; intros deck Hrm; [done|].
  destruct (decide (c ∈ deck)) as [Hin|Hnin].
  - destruct (IH _ Hrm) as (l1 & x & l2 & d & -> & Hl1 & Hx & ->).
    exists (c :: l1), x, l2, d. simpl.
    by destruct (decide (c ∈ deck)).
  - injection Hrm as <-. by exists [], c, rest, deck.
Qed.

Lemma repeated_token_error
    {R : Random} {laws : RandomLaws R} (evaluate : list card → list card → Z)
    (hole_cards board_cards : list string) (num_players num_simulations : Z)
    (g : rng) :
  validate_cards (hole_cards ++ board_cards) = true →
  ¬ NoDup (hole_cards ++ board_cards) →
  ∃ l1 t l2,
    hole_cards ++ board_cards = l1 ++ t :: l2
    ∧ NoDup l1
    ∧ t ∈ l1
    ∧ calculate_win_probability evaluate hole_cards board_cards
        num_players num_simulations g
      = (Err (ValueError (CardNotAvailable t)), (shuffle GetFullDeck g).2).
Proof.
  intros Hvalid Hdup. apply validate_cards_Forall in Hvalid.
  destruct (new_all_valid _ Hvalid) as [ints Hnew].
  pose proof (new_all_round_trip _ _ Hvalid Hnew) as Hback.
  pose proof (proj1 (new_all_Forall2 _ _) Hnew) as Hconv.
  pose proof (converts_to_deck _ _ Hconv) as Hdeck.
  pose proof (convert_cards_new_all hole_cards board_cards) as Hcc.
  rewrite Hnew in Hcc.
  set (hole := take (length hole_cards) ints) in *.
  set (board := drop (length hole_cards) ints) in *.
  assert (hole ++ board = ints) as Hints by apply take_drop.
  pose proof (shuffle_perm GetFullDeck g) as Hperm.
  destruct (remove_used (shuffle GetFullDeck g).1 (hole ++ board))
    as [deck'|e] eqn:Hrm.
  { exfalso. apply Hdup. rewrite <- Hback.
    apply remove_used_Ok in Hrm. rewrite Hperm, Hints in Hrm.
    pose proof GetFullDeck_NoDup as Hfull. rewrite Hrm in Hfull.
    apply NoDup_app in Hfull as (Hnd & _).
    apply NoDup_fmap_2_strong; [|done].
    intros x y Hx Hy. apply int_to_str_inj_deck; auto. }
  destruct (remove_used_first_failure _ _ _ Hrm)
    as (k1 & c & k2 & d & Hsplit & Hk1 & Hc & ->).
  rewrite Hints in Hsplit.
  apply remove_used_Ok in Hk1. rewrite Hperm in Hk1.
  pose proof GetFullDeck_NoDup as Hfull. rewrite Hk1 in Hfull.
  apply NoDup_app in Hfull as (Hnd1 & _ & _).
  assert (c ∈ k1) as Hck1.
  { assert (c ∈ k1 ++ d) as Hin.
    { rewrite <- Hk1. apply Hdeck. rewrite Hsplit.
      apply elem_of_app. right. left. }
    apply elem_of_app in Hin as [?|?]; done. }
  exists (Card.int_to_str <$> k1), (Card.int_to_str c), (Card.int_to_str <$> k2).
  split; [by rewrite <- Hback, Hsplit, fmap_app|].
  split.
  { apply NoDup_fmap_2_strong; [|done].
    intros x y Hx Hy. apply int_to_str_inj_deck; apply Hdeck; rewrite Hsplit;
      apply elem_of_app; by left. }
  split; [by apply list_elem_of_fmap_2|].
  unfold calculate_win_probability, bind.
  by rewrite (setup_Err _ _ _ _ _ _ Hcc Hrm).
Qed.

(** X9. When the tokens pass [validate_cards] and one is given twice, the
    call raises the [ValueError] of line 55 with the first token that repeats
    an earlier one, spelled as it was typed; no trial runs. *)
Theorem repeated_token_is_named
    {R : Random} {laws : RandomLaws R} (evaluate : list card → list card → Z)
    (hole_cards board_cards : list string) (num_players num_simulations : Z)
    (g : rng) :
  validate_cards (hole_cards ++ board_cards) = true →
  ¬ NoDup (hole_cards ++ board_cards) →
  ∃ l1 t l2,
    hole_cards ++ board_cards = l1 ++ t :: l2
    ∧ NoDup l1
    ∧ t ∈ l1
    ∧ calculate_win_probability evaluate hole_cards board_cards
        num_players num_simulations g
      = (Err (ValueError (CardNotAvailable t)), (shuffle GetFullDeck g).2).
Proof. apply repeated_token_error. Qed.

Lemma repeated_token_is_named_witness :
  ∃ l1 t l2,
    ["As"; "Kd"]%string ++ ["Qs"; "Kd"; "As"]%string = l1 ++ t :: l2
    ∧ NoDup l1
    ∧ t ∈ l1
    ∧ calculate_win_probability (R := TapeRandom) rank_sum_evaluate
        ["As"; "Kd"]%string ["Qs"; "Kd"; "As"]%string 2 100 (seeded_tape 60 1)
      = (Err (ValueError (CardNotAvailable t)),
         (shuffle (Random := TapeRandom) GetFullDeck (seeded_tape 60 1)).2).
Proof.
  apply (repeated_token_is_named (R := TapeRandom) rank_sum_evaluate
           ["As"; "Kd"]%string ["Qs"; "Kd"; "As"]%string 2 100 (seeded_tape 60 1)).
  - reflexivity.
  - apply (bool_decide_unpack _). vm_compute. exact I.
Defined.

(** ** The cards of one deal, lines 62-74 *)

Section DealtCards.
Context {R : Random} {laws : RandomLaws R}.

(** For a valid input and at most 23 players the set-up and every deal
    complete. *)
Lemma valid_deal hole_cards board_cards num_players g g' :
  valid_input hole_cards board_cards →
  num_players ≤ 23 →
  ∃ st d g'',
    setup hole_cards board_cards g = (Ok st, (shuffle GetFullDeck g).2)
    ∧ deal_trial (deck_cards st) board_cards num_players g' = (Ok d, g'')
    ∧ length (hole_card_ints st) = 2%nat
    ∧ length (final_board st d) = 5%nat.
Proof.
  intros Hvalid Hnp.
  destruct (setup_valid hole_cards board_cards g Hvalid)
    as (st & Hs & Hnd & Hlen & Hboard & _).
  destruct (deal_trial_total (deck_cards st) board_cards num_players g')
    as (d & g'' & Hd); [done | | | |].
  { destruct Hvalid as (_ & ? & _). lia. }
  { by destruct Hvalid as (_ & ? & _). }
  { destruct Hvalid as (_ & ? & _). lia. }
  exists st, d, g''. split; [done|]. split; [done|].
  pose proof Hs as (_ & Hconv & _)%setup_inv.
  apply convert_cards_Ok in Hconv as [Hh _]. apply Forall2_length in Hh.
  destruct Hvalid as (Hhole & Hb & _).
  apply deal_trial_inv in Hd as (_ & _ & Hrest & _).
  split; [congruence|]. unfold final_board. rewrite length_app. lia.
Qed.

(** The hero's cards, the final board and any one opponent's hand are
    distinct cards. *)
Lemma dealt_cards_distinct hole_cards board_cards num_players g g1 g' g'' st d :
  setup hole_cards board_cards g = (Ok st, g1) →
  deal_trial (deck_cards st) board_cards num_players g' = (Ok d, g'') →
  NoDup (hole_card_ints st ++ final_board st d)
  ∧ ∀ hand, hand ∈ opponents_hands d →
      NoDup ((hole_card_ints st ++ final_board st d) ++ hand).
Proof.
  intros Hs Hd.
  pose proof (deal_trial_separation _ _ _ _ _ _ _ _ _ Hs Hd)
    as (Hhands & Hrest & Hapart & Hused).
  pose proof (setup_deck _ _ _ _ _ Hs) as Hperm.
  pose proof GetFullDeck_NoDup as Hfull. rewrite Hperm in Hfull.
  apply NoDup_app in Hfull as (Hnd & _ & _).
  assert (NoDup (hole_card_ints st ++ final_board st d)) as Hboard.
  { unfold final_board. rewrite app_assoc. apply NoDup_app.
    split; [done|]. split; [|done].
    intros c Hc Hin. apply (Hused c); [|done]. apply elem_of_app. by right. }
  split; [done|]. intros hand Hhand. apply NoDup_app.
  split; [done|]. split; [|by rewrite Forall_forall in Hhands; apply Hhands].
  assert (∀ c, c ∈ hand → c ∈ concat (opponents_hands d)) as Hin.
  { intros c Hc. apply list_elem_of_In, in_concat. exists hand.
    split; by apply list_elem_of_In. }
  intros c Hc Hch. unfold final_board in Hc. rewrite app_assoc in Hc.
  apply elem_of_app in Hc as [Hc|Hc].
  - apply (Hused c); [|done]. apply elem_of_app. left. by apply Hin.
  - apply (Hapart c Hc). by apply Hin.
Qed.

End DealtCards.

(** X10. For a valid input and at most 23 players, every deal completes and
    every hand handed to the evaluator, the hero's and each opponent's
    together with the final board, is seven distinct cards. *)
Theorem every_evaluation_gets_seven_distinct_cards
    {R : Random} {laws : RandomLaws R}
    (hole_cards board_cards : list string) (num_players : Z) (g g' : rng) :
  valid_input hole_cards board_cards →
  num_players ≤ 23 →
  ∃ st d g'',
    setup hole_cards board_cards g = (Ok st, (shuffle GetFullDeck g).2)
    ∧ deal_trial (deck_cards st) board_cards num_players g' = (Ok d, g'')
    ∧ length (opponents_hands d) = Z.to_nat (num_players - 1)
    ∧ length (final_board st d ++ hole_card_ints st) = 7%nat
    ∧ NoDup (final_board st d ++ hole_card_ints st)
    ∧ Forall (λ hand, length (final_board st d ++ hand) = 7%nat
                      ∧ NoDup (final_board st d ++ hand))
        (opponents_hands d).
Proof.
  intros Hvalid Hnp.
  destruct (valid_deal hole_cards board_cards num_players g g' Hvalid Hnp)
    as (st & d & g'' & Hs & Hd & Hhole & Hfive).
  exists st, d, g''. split; [done|]. split; [done|].
  destruct (dealt_cards_distinct _ _ _ _ _ _ _ _ _ Hs Hd) as [Hhero Hopp].
  pose proof (deal_trial_inv _ _ _ _ _ _ Hd) as (Hn & Hhands & _).
  split; [done|]. split; [rewrite length_app; lia|].
  split; [by rewrite (Permutation_app_comm (final_board st d))|].
  apply Forall_forall. intros hand Hhand. split.
  - rewrite Forall_forall in Hhands. destruct (Hhands hand Hhand) as [Hlen _].
    rewrite length_app. lia.
  - specialize (Hopp hand Hhand). rewrite <- app_assoc in Hopp.
    by apply NoDup_app in Hopp as (_ & _ & ?).
Qed.

Lemma every_evaluation_gets_seven_distinct_cards_witness :
  ∃ st d g'',
    setup (R := TapeRandom) ["As"; "Kd"]%string ["Qs"; "Jh"; "9d"]%string
      (seeded_tape 100 1)
    = (Ok st, (shuffle (Random := TapeRandom) GetFullDeck (seeded_tape 100 1)).2)
    ∧ deal_trial (R := TapeRandom) (deck_cards st) ["Qs"; "Jh"; "9d"]%string 4
        (seeded_tape 30 7) = (Ok d, g'')
    ∧ length (opponents_hands d) = Z.to_nat (4 - 1)
    ∧ length (final_board st d ++ hole_card_ints st) = 7%nat
    ∧ NoDup (final_board st d ++ hole_card_ints st)
    ∧ Forall (λ hand, length (final_board st d ++ hand) = 7%nat
                      ∧ NoDup (final_board st d ++ hand))
        (opponents_hands d).
Proof.
  apply (every_evaluation_gets_seven_distinct_cards (R := TapeRandom)
           ["As"; "Kd"]%string ["Qs"; "Jh"; "9d"]%string 4
           (seeded_tape 100 1) (seeded_tape 30 7)).
  - solve_valid_input.
  - lia.
Defined.

(** X11. With two players the deal has no collision at all: the hero's
    cards, the final board and the one opponent's hand are nine distinct
    cards. *)
Theorem heads_up_deal_has_no_collision
    {R : Random} {laws : RandomLaws R}
    (hole_cards board_cards : list string) (g g' : rng) :
  valid_input hole_cards board_cards →
  ∃ st d g'',
    setup hole_cards board_cards g = (Ok st, (shuffle GetFullDeck g).2)
    ∧ deal_trial (deck_cards st) board_cards 2 g' = (Ok d, g'')
    ∧ length (hole_card_ints st ++ final_board st d
              ++ concat (opponents_hands d)) = 9%nat
    ∧ NoDup (hole_card_ints st ++ final_board st d
             ++ concat (opponents_hands d)).
Proof.
  intros Hvalid.
  destruct (valid_deal hole_cards board_cards 2 g g' Hvalid ltac:(lia))
    as (st & d & g'' & Hs & Hd & Hhole & Hfive).
  exists st, d, g''. split; [done|]. split; [done|].
  destruct (dealt_cards_distinct _ _ _ _ _ _ _ _ _ Hs Hd) as [_ Hopp].
  pose proof (deal_trial_inv _ _ _ _ _ _ Hd) as (Hn & Hhands & _).
  destruct (opponents_hands d) as [|hand [|? ?]] eqn:Hopps;
    simpl in Hn; try lia.
  apply Forall_cons_1 in Hhands as [[Hlen _] _].
  simpl. rewrite app_nil_r. split.
  - rewrite !length_app. lia.
  - rewrite app_assoc. apply Hopp. left.
Qed.

Lemma heads_up_deal_has_no_collision_witness :
  ∃ st d g'',
    setup (R := TapeRandom) ["As"; "Kd"]%string [] (seeded_tape 100 1)
    = (Ok st, (shuffle (Random := TapeRandom) GetFullDeck (seeded_tape 100 1)).2)
    ∧ deal_trial (R := TapeRandom) (deck_cards st) [] 2 (seeded_tape 30 7)
      = (Ok d, g'')
    ∧ length (hole_card_ints st ++ final_board st d
              ++ concat (opponents_hands d)) = 9%nat
    ∧ NoDup (hole_card_ints st ++ final_board st d
             ++ concat (opponents_hands d)).
Proof.
  apply (heads_up_deal_has_no_collision (R := TapeRandom)
           ["As"; "Kd"]%string [] (seeded_tape 100 1) (seeded_tape 30 7)).
  solve_valid_input.
Defined.

(** ** Runs that the form does not allow *)

Section OutOfRange.
Context {R : Random} {laws : RandomLaws R}.

Lemma sample_Err pop k g e g' :
  sample pop k g = (Err e, g') → e = ValueError SampleOutOfRange.
Proof.
  intros Hs. destruct (decide (0 ≤ k ≤ Z.of_nat (length pop))) as [Hk|Hk].
  - destruct (sample_total pop k g Hk) as (l & g'' & Hs' & _). congruence.
  - pose proof (sample_range pop k g Hk) as He. rewrite Hs in He.
    simpl in He. congruence.
Qed.

Lemma deal_opponents_Err deck n g e g' :
  deal_opponents deck n g = (Err e, g') → e = ValueError SampleOutOfRange.
Proof.
  revert g. induction n as [|n IH]; intros g; simpl; [done|].
  unfold bind. destruct (sample deck 2 g) as [[h|e1] g1] eqn:Hs.
  - destruct (deal_opponents deck n g1) as [[hs|e2] g2] eqn:Hd; [done|].
    intros [= <- <-]. by eapply IH.
  - intros [= <- <-]. by eapply sample_Err.
Qed.

Lemma deal_trial_negative deck board_cards num_players g :
  (5 < length board_cards)%nat →
  ∃ g', deal_trial deck board_cards num_players g
        = (Err (ValueError SampleOutOfRange), g').
Proof.
  intros Hlen. unfold deal_trial, bind.
  destruct (deal_opponents deck _ g) as [[opps|e] g1] eqn:Hd.
  - match goal with
    | |- context [sample ?pop ?k g1] =>
        assert (¬ (0 ≤ k ≤ Z.of_nat (length pop))) as Hk by lia;
        pose proof (sample_range pop k g1 Hk) as He;
        destruct (sample pop k g1) as [r g2]
    end.
    simpl in He. subst r. eauto.
  - apply deal_opponents_Err in Hd as ->. eauto.
Qed.

End OutOfRange.

(** X12. With more than five board cards (all cards converting and distinct)
    and a positive number of simulations, the first trial raises the
    [ValueError] of [random.sample]: the size of the board draw is negative. *)
Theorem more_than_five_board_cards_raise
    {R : Random} {laws : RandomLaws R} (evaluate : list card → list card → Z)
    (hole_cards board_cards : list string) (num_players num_simulations : Z)
    (g : rng) (hole board : list card) :
  convert_cards hole_cards board_cards = Ok (hole, board) →
  NoDup (hole ++ board) →
  (5 < length board_cards)%nat →
  0 < num_simulations →
  ∃ g', calculate_win_probability evaluate hole_cards board_cards
          num_players num_simulations g
        = (Err (ValueError SampleOutOfRange), g').
Proof.
  intros Hconv Hnd Hlen Hns.
  unfold calculate_win_probability, bind at 1 2.
  rewrite (setup_exact _ _ g _ _ Hconv Hnd).
  destruct (Z.to_nat num_simulations) as [|n] eqn:En; [lia|].
  simpl. unfold bind at 1. unfold trial, bind at 1. simpl deck_cards.
  match goal with
  | |- context [deal_trial ?deck board_cards num_players ?g1] =>
      destruct (deal_trial_negative deck board_cards num_players g1 Hlen)
        as [g' ->]
  end.
  eauto.
Qed.

Lemma more_than_five_board_cards_raise_witness :
  ∃ g', calculate_win_probability (R := TapeRandom) rank_sum_evaluate
          ["As"; "Kd"]%string ["Qs"; "Jh"; "9d"; "2c"; "7h"; "3s"]%string
          2 100 (seeded_tape 100 1)
        = (Err (ValueError SampleOutOfRange), g').
Proof.
  apply (more_than_five_board_cards_raise (R := TapeRandom) rank_sum_evaluate
           ["As"; "Kd"]%string ["Qs"; "Jh"; "9d"; "2c"; "7h"; "3s"]%string
           2 100 (seeded_tape 100 1)
           [268442665; 134236965]
           [67115551; 33564957; 8406803; 98306; 2106637; 135427]).
  - vm_compute. reflexivity.
  - apply (bool_decide_unpack _). vm_compute. exact I.
  - simpl. lia.
  - lia.
Defined.

(** X13. With [num_simulations = 0] (all cards converting and distinct) the
    call raises [ZeroDivisionError], having run no trial. *)
Theorem zero_simulations_raise_zero_division
    {R : Random} {laws : RandomLaws R} (evaluate : list card → list card → Z)
    (hole_cards board_cards : list string) (num_players : Z)
    (g : rng) (hole board : list card) :
  convert_cards hole_cards board_cards = Ok (hole, board) →
  NoDup (hole ++ board) →
  calculate_win_probability evaluate hole_cards board_cards num_players 0 g
  = (Err ZeroDivisionError, (shuffle GetFullDeck g).2).
Proof.
  intros Hconv Hnd. unfold calculate_win_probability, bind.
  by rewrite (setup_exact _ _ g _ _ Hconv Hnd).
Qed.

Lemma zero_simulations_raise_zero_division_witness :
  calculate_win_probability (R := TapeRandom) rank_sum_evaluate
    ["As"; "Kd"]%string ["Qs"]%string 3 0 (seeded_tape 100 1)
  = (Err ZeroDivisionError,
     (shuffle (Random := TapeRandom) GetFullDeck (seeded_tape 100 1)).2).
Proof.
  apply (zero_simulations_raise_zero_division (R := TapeRandom)
           rank_sum_evaluate ["As"; "Kd"]%string ["Qs"]%string 3
           (seeded_tape 100 1) [268442665; 134236965] [67115551]).
  - reflexivity.
  - apply (bool_decide_unpack _). vm_compute. exact I.
Defined.

(** X14. With a negative [num_simulations] (all cards converting and
    distinct) the call runs no trial and returns zero. *)
Theorem negative_simulations_return_zero
    {R : Random} {laws : RandomLaws R} (evaluate : list card → list card → Z)
    (hole_cards board_cards : list string) (num_players num_simulations : Z)
    (g : rng) (hole board : list card) :
  convert_cards hole_cards board_cards = Ok (hole, board) →
  NoDup (hole ++ board) →
  num_simulations < 0 →
  ∃ p, calculate_win_probability evaluate hole_cards board_cards
         num_players num_simulations g
       = (Ok p, (shuffle GetFullDeck g).2)
    ∧ (p == 0)%Q.
Proof.
  intros Hconv Hnd Hns. unfold calculate_win_probability, bind.
  rewrite (setup_exact _ _ g _ _ Hconv Hnd).
  replace (Z.to_nat num_simulations) with O by lia. simpl.
  unfold lift, percentage.
  destruct (Z.eqb_spec num_simulations 0) as [?|_]; [lia|].
  eexists. split; [reflexivity|].
  unfold Qeq, Qmult, Qdiv, inject_Z. simpl. lia.
Qed.

Lemma negative_simulations_return_zero_witness :
  ∃ p, calculate_win_probability (R := TapeRandom) rank_sum_evaluate
         ["As"; "Kd"]%string ["Qs"]%string 3 (-5) (seeded_tape 100 1)
       = (Ok p, (shuffle (Random := TapeRandom) GetFullDeck (seeded_tape 100 1)).2)
    ∧ (p == 0)%Q.
Proof.
  apply (negative_simulations_return_zero (R := TapeRandom)
           rank_sum_evaluate ["As"; "Kd"]%string ["Qs"]%string 3 (-5)
           (seeded_tape 100 1) [268442665; 134236965] [67115551]).
  - reflexivity.
  - apply (bool_decide_unpack _). vm_compute. exact I.
  - lia.
Defined.

(** ** What the form can show, lines 104-122 *)

(** X15. When the button is pressed on two hole tokens and at most five board
    tokens that pass [validate_cards], with the slider's 2 to 10 players, the
    page shows either a percentage between 0 and 100 (no token repeats) or the
    calculation error naming a repeated token; the "Unexpected error" branch
    and the "Invalid card" error are never reached. *)
Theorem form_shows_percentage_or_repeated_card
    {R : Random} {laws : RandomLaws R} (evaluate : list card → list card → Z)
    (hole_cards board_cards : list string) (num_players : Z) (g : rng) :
  2 ≤ num_players ≤ 10 →
  length hole_cards = 2%nat →
  (length board_cards ≤ 5)%nat →
  validate_cards (hole_cards ++ board_cards) = true →
  ∃ out g',
    poker_probability_app evaluate hole_cards board_cards num_players true g
    = (Ok out, g')
    ∧ ((NoDup (hole_cards ++ board_cards)
        ∧ ∃ p, out = Success p ∧ (0 <= p)%Q ∧ (p <= inject_Z 100)%Q)
       ∨ (¬ NoDup (hole_cards ++ board_cards)
          ∧ ∃ t, t ∈ hole_cards ++ board_cards
                 ∧ out = CalculationError (CardNotAvailable t))).
Proof.
  intros Hnp Hhole Hboard Hvalid. unfold poker_probability_app.
  rewrite Hhole, Hvalid. simpl.
  destruct (Nat.ltb_spec 5 (length board_cards)) as [?|_]; [lia|].
  unfold on_click.
  destruct (decide (NoDup (hole_cards ++ board_cards))) as [Hnd|Hdup].
  - destruct (calculate_returns evaluate hole_cards board_cards num_players
                10000 g) as (p & g' & -> & Hbounds); [done | lia | lia |].
    exists (Success p), g'. split; [done|]. left. eauto.
  - destruct (repeated_token_error evaluate hole_cards board_cards num_players
                10000 g Hvalid Hdup) as (l1 & t & l2 & Hsplit & _ & _ & ->).
    exists (CalculationError (CardNotAvailable t)), (shuffle GetFullDeck g).2.
    split; [done|]. right. split; [done|]. exists t. split; [|done].
    rewrite Hsplit. apply elem_of_app. right. left.
Qed.

Lemma form_shows_percentage_or_repeated_card_witness :
  ∃ out g',
    poker_probability_app (R := TapeRandom) rank_sum_evaluate
      ["As"; "Kd"]%string ["Qs"; "Jh"; "As"]%string 3 true (seeded_tape 60 1)
    = (Ok out, g')
    ∧ ((NoDup (["As"; "Kd"]%string ++ ["Qs"; "Jh"; "As"]%string)
        ∧ ∃ p, out = Success p ∧ (0 <= p)%Q ∧ (p <= inject_Z 100)%Q)
       ∨ (¬ NoDup (["As"; "Kd"]%string ++ ["Qs"; "Jh"; "As"]%string)
          ∧ ∃ t, t ∈ ["As"; "Kd"]%string ++ ["Qs"; "Jh"; "As"]%string
                 ∧ out = CalculationError (CardNotAvailable t))).
Proof.
  apply (form_shows_percentage_or_repeated_card (R := TapeRandom)
           rank_sum_evaluate ["As"; "Kd"]%string ["Qs"; "Jh"; "As"]%string 3
           (seeded_tape 60 1)).
  - lia.
  - reflexivity.
  - simpl. lia.
  - reflexivity.
Defined.

(** ** What a seed of the random module determines *)

Lemma draw_fmap (f : card → card) k pool t :
  draw k (f <$> pool) t = (f <$> (draw k pool t).1, (draw k pool t).2).
Proof.
  revert pool t. induction k as [|k IH]; intros pool t; simpl; [done|].
  rewrite length_fmap. destruct (randbelow (length pool) t) as [j t'].
  rewrite list_lookup_fmap. destruct (pool !! j) as [c|]; simpl; [|done].
  rewrite <- list_fmap_delete, IH.
  by destruct (draw k (delete j pool) t').
Qed.

#[global] Instance TapeRandom_positions : SamplesPositions TapeRandom.
Proof.
  split. intros f pop k t. simpl. unfold tape_sample. rewrite length_fmap.
  destruct ((0 <=? k) && (k <=? Z.of_nat (length pop))); [|done].
  rewrite draw_fmap. by destruct (draw (Z.to_nat k) pop t).
Qed.

#[global] Instance OwnDeckRandom_laws (R : Random) (laws : RandomLaws R) :
  RandomLaws (OwnDeckRandom R).
Proof.
  split; simpl.
  - intros l [d s]. simpl. pose proof (shuffle_perm l d) as Hperm.
    by destruct (shuffle l d).
  - intros pop k [d s] Hk. simpl. pose proof (sample_range pop k s Hk) as He.
    by destruct (sample pop k s).
  - intros pop k [d s] Hk. simpl.
    destruct (sample_draw pop k s Hk) as (l & Hl & Hrest).
    exists l. by destruct (sample pop k s).
Qed.




Section Relabelled.
Context {R : Random} {laws : RandomLaws R} {positions : SamplesPositions R}.



Variable evaluate : list card → list card → Z.







End Relabelled.




